(** * The voice controller of the Astra assistant (src/frontend/voice.js)

    A shallow embedding of the [VoiceController] class and the properties
    of its voice selection, speech dispatch, sanitisation and listening
    life cycle.

    Conventions of the embedding.
    - A JavaScript string is the list of its UTF-16 code units ([jsstring]).
      Regular expressions of the source carry no [u] flag, so they work on
      code units, as the matchers below do.
    - The controller is built on a platform that provides
      [window.speechSynthesis] and [Audio]; speech recognition is optional,
      as [init] provides for.
    - Callbacks handed to the controller are opaque tokens; calling one is an
      [Invoke] event of the trace and returns normally.  Calls that a callback
      makes back into the controller are further operations of the run.
    - [console] output is not part of the model. *)

From Stdlib Require Import String Ascii.
From Stdlib Require Import List NArith Arith Bool Lia QArith.
Import ListNotations.

Local Open Scope N_scope.
Local Open Scope list_scope.

(** ** JavaScript strings *)

Module JsString.

Definition jsstring := list N.

(** The code units of an ASCII literal. *)
Definition js (s : string) : jsstring :=
  map N_of_ascii (list_ascii_of_string s).

Definition eqb (a b : jsstring) : bool :=
  if list_eq_dec N.eq_dec a b then true else false.

(** [s.startsWith(p)] *)
Fixpoint startsWith (s p : jsstring) : bool :=
  match p, s with
  | [], _ => true
  | _ :: _, [] => false
  | x :: p', y :: s' => (x =? y) && startsWith s' p'
  end.

(** [s.indexOf(p)], [None] standing for -1. *)
Fixpoint indexOf (s p : jsstring) : option nat :=
  if startsWith s p then Some O
  else match s with
       | [] => None
       | _ :: s' => option_map S (indexOf s' p)
       end.

(** [s.includes(p)] *)
Definition includes (s p : jsstring) : bool :=
  match indexOf s p with Some _ => true | None => false end.

Fixpoint takeWhile (p : N -> bool) (s : jsstring) : jsstring :=
  match s with
  | [] => []
  | c :: s' => if p c then c :: takeWhile p s' else []
  end.

Fixpoint dropWhile (p : N -> bool) (s : jsstring) : jsstring :=
  match s with
  | [] => []
  | c :: s' => if p c then dropWhile p s' else s
  end.

(** [s.split('-')[0]]: the text before the first hyphen, the whole string
    when it has none. *)
Definition beforeHyphen (s : jsstring) : jsstring :=
  takeWhile (fun c => negb (c =? 45)) s.

(** The regular expression class [\w]: ASCII letters, digits and [_]. *)
Definition isWord (c : N) : bool :=
  ((48 <=? c) && (c <=? 57)) || ((65 <=? c) && (c <=? 90))
  || ((97 <=? c) && (c <=? 122)) || (c =? 95).

(** The class [\s], which is also what [trim] strips: ECMAScript WhiteSpace
    and LineTerminator. *)
Definition isSpace (c : N) : bool :=
  ((9 <=? c) && (c <=? 13)) || (c =? 32) || (c =? 160) || (c =? 5760)
  || ((8192 <=? c) && (c <=? 8202)) || (c =? 8232) || (c =? 8233)
  || (c =? 8239) || (c =? 8287) || (c =? 12288) || (c =? 65279).

(** Trailing white space removed. *)
Fixpoint trimEnd (s : jsstring) : jsstring :=
  match s with
  | [] => []
  | c :: s' =>
      match trimEnd s' with
      | [] => if isSpace c then [] else [c]
      | r => c :: r
      end
  end.

(** [s.trim()] *)
Definition trim (s : jsstring) : jsstring :=
  trimEnd (dropWhile isSpace s).

(** *** Global regular-expression replacement

    A [matcher] tries to match its pattern at the head of the text it is
    given and answers the replacement text and the length of the match.
    None of the patterns of the source looks behind the match start or
    matches the empty string. [replaceFrom m k s] is the scan of
    [s.replace(/.../g, ...)]: the next [k] code units belong to the match
    just replaced and are skipped, as the regular expression's [lastIndex]
    has them skipped. *)
Definition matcher := jsstring -> option (jsstring * nat).

Fixpoint replaceFrom (m : matcher) (k : nat) (s : jsstring) : jsstring :=
  match s with
  | [] => []
  | c :: s' =>
      match k with
      | S k' => replaceFrom m k' s'
      | O =>
          match m s with
          | Some (rep, n) => rep ++ replaceFrom m (Nat.pred n) s'
          | None => c :: replaceFrom m O s'
          end
      end
  end.

Definition replaceAll (m : matcher) (s : jsstring) : jsstring :=
  replaceFrom m O s.

(** [s.match(/.../g)]: the matched texts, left to right; the empty list
    stands for [null]. *)
Fixpoint matchFrom (m : jsstring -> option jsstring) (k : nat) (s : jsstring)
  : list jsstring :=
  match s with
  | [] => []
  | c :: s' =>
      match k with
      | S k' => matchFrom m k' s'
      | O =>
          match m s with
          | Some hit => hit :: matchFrom m (Nat.pred (length hit)) s'
          | None => matchFrom m O s'
          end
      end
  end.

Definition matchAll (m : jsstring -> option jsstring) (s : jsstring)
  : list jsstring :=
  matchFrom m O s.

End JsString.
Import JsString.

(** ** The utterance sanitiser (speak, lines 270-278) *)

Module Sanitizer.

Definition backtick : N := 96.
Definition dollar : N := 36.
Definition lbracket : N := 91.
Definition rbracket : N := 93.
Definition lparen : N := 40.
Definition rparen : N := 41.

Definition isNot (d : N) (c : N) : bool := negb (c =? d).

Definition fence : jsstring := [backtick; backtick; backtick].
Definition ddollar : jsstring := [dollar; dollar].

(** [/```(\w+)?\s*([\s\S]*?)```/]: an opening fence and the first closing
    fence after it.  The optional word directly after the opening fence is
    the first capture; neither [\w] nor [\s] holds a backtick, so the greedy
    prefix never runs over the closing fence. The replacement is computed by
    the callback of line 271. *)
Definition matchFence : matcher := fun s =>
  if startsWith s fence then
    let body := skipn 3 s in
    match indexOf body fence with
    | Some j =>
        Some (js " Here is the " ++ takeWhile isWord body
                ++ js " code. End of code. ",
              (3 + j + 3)%nat)
    | None => None
    end
  else None.

(** [/d([^d]+)d/] for a one-unit delimiter [d]: the delimiter, a non-empty
    run free of it, the delimiter.  [wrap] builds the replacement around
    the capture. *)
Definition matchDelimited (d : N) (wrap : jsstring -> jsstring) : matcher :=
  fun s =>
    match s with
    | c :: s' =>
        if c =? d then
          match takeWhile (isNot d) s', dropWhile (isNot d) s' with
          | (_ :: _) as run, _ :: _ => Some (wrap run, (2 + length run)%nat)
          | _, _ => None
          end
        else None
    | [] => None
    end.

(** [/`([^`]+)`/] replaced by [' code $1 ']. *)
Definition matchInlineCode : matcher :=
  matchDelimited backtick (fun run => js " code " ++ run ++ js " ").

(** [/\$\$([\s\S]*?)\$\$/] replaced by [' The formula is: $1 ']. *)
Definition matchBlockMath : matcher := fun s =>
  if startsWith s ddollar then
    let body := skipn 2 s in
    match indexOf body ddollar with
    | Some j =>
        Some (js " The formula is: " ++ firstn j body ++ js " ",
              (2 + j + 2)%nat)
    | None => None
    end
  else None.

(** [/\$([^$]+)\$/] replaced by [' formula $1 ']. *)
Definition matchInlineMath : matcher :=
  matchDelimited dollar (fun run => js " formula " ++ run ++ js " ").

(** [/\[([^\]]+)\]\([^\)]+\)/] replaced by ['$1']. *)
Definition matchLink : matcher := fun s =>
  match s with
  | c :: s1 =>
      if c =? lbracket then
        match takeWhile (isNot rbracket) s1, dropWhile (isNot rbracket) s1 with
        | (_ :: _) as label, _ :: p :: s2 =>
            if p =? lparen then
              match takeWhile (isNot rparen) s2, dropWhile (isNot rparen) s2 with
              | (_ :: _) as url, _ :: _ =>
                  Some (label, (1 + length label + 2 + length url + 1)%nat)
              | _, _ => None
              end
            else None
        | _, _ => None
        end
      else None
  | [] => None
  end.

(** [/[*#_]/] replaced by the empty string. *)
Definition isMarker (c : N) : bool := (c =? 42) || (c =? 35) || (c =? 95).

Definition matchMarker : matcher := fun s =>
  match s with
  | c :: _ => if isMarker c then Some ([], 1%nat) else None
  | [] => None
  end.

(** [/\s+/] replaced by one space. *)
Definition matchSpaces : matcher := fun s =>
  match s with
  | c :: s' =>
      if isSpace c then Some ([32], S (length (takeWhile isSpace s')))
      else None
  | [] => None
  end.

(** [readableText] of [speak]. *)
Definition sanitize (text : jsstring) : jsstring :=
  trim
    (replaceAll matchSpaces
      (replaceAll matchMarker
        (replaceAll matchLink
          (replaceAll matchInlineMath
            (replaceAll matchBlockMath
              (replaceAll matchInlineCode
                (replaceAll matchFence text))))))).

(** *** Sentence segmentation (line 303) *)

Definition isTerminator (c : N) : bool := (c =? 46) || (c =? 33) || (c =? 63).
Definition notTerminator (c : N) : bool := negb (isTerminator c).

(** [/[^.!?]+[.!?]+|[^.!?]+$/]: a non-empty run without terminators, then
    either the terminators that follow it or the end of the text. *)
Definition matchSentence (s : jsstring) : option jsstring :=
  match takeWhile notTerminator s with
  | [] => None
  | run => Some (run ++ takeWhile isTerminator (dropWhile notTerminator s))
  end.

(** [readableText.match(...) || [readableText]] *)
Definition sentencesOf (readable : jsstring) : list jsstring :=
  match matchAll matchSentence readable with
  | [] => [readable]
  | l => l
  end.

End Sanitizer.
Import Sanitizer.

(** ** Data of the controller *)

Record Voice := mkVoice { name : jsstring; lang : jsstring }.

Definition Callback := nat.

(** The [options] argument of [speak]; an absent key is [None]. *)
Record Options := mkOptions {
  o_lang : option jsstring;
  o_pitch : option Q;
  o_rate : option Q;
  o_onStart : option Callback;
  o_onEnd : option Callback }.

Definition noOptions : Options := mkOptions None None None None None.

(** A [SpeechSynthesisUtterance] as [speak] fills it in. *)
Record Utterance := mkUtterance {
  u_text : jsstring;
  u_lang : jsstring;
  u_voice : option Voice;
  u_pitch : Q;
  u_rate : Q;
  u_onstart : option Callback;
  u_onend : option Callback }.

(** The fields of [this] (constructor, lines 5-20). [recognition] tells
    whether [this.recognition] holds a recogniser or [null]; [defaultPitch]
    is undefined until the first [setVoice]. *)
Record Controller := mkController {
  recognition : bool;
  isListening : bool;
  selectedVoice : option Voice;
  voices : list Voice;
  utteranceQueue : list Utterance;
  isSpeakingFlag : bool;
  currentLang : jsstring;
  preferredGender : jsstring;
  preferredLang : jsstring;
  defaultPitch : option Q;
  isGoogleSpeaking : bool }.

(** *** JavaScript truthiness for [a || b] *)

Definition orElse {A : Type} (a b : option A) : option A :=
  match a with Some x => Some x | None => b end.

(** A string operand: undefined and the empty string are falsy. *)
Definition strOr (a : option jsstring) (b : jsstring) : jsstring :=
  match a with
  | Some (c :: s) => c :: s
  | _ => b
  end.

(** A number operand: undefined and zero are falsy. *)
Definition numOr (a : option Q) (b : Q) : Q :=
  match a with
  | Some q => if Qeq_bool q 0 then b else q
  | None => b
  end.

(** ** Voice selection (setVoice, lines 51-122) *)

Definition langMap : list (jsstring * jsstring) :=
  map (fun p => (js (fst p), js (snd p)))
    [("en", "en-US"); ("es", "es-ES"); ("hi", "hi-IN"); ("zh-CN", "zh-CN");
     ("fr", "fr-FR"); ("de", "de-DE"); ("ja", "ja-JP"); ("ko", "ko-KR");
     ("pt", "pt-BR"); ("ru", "ru-RU"); ("it", "it-IT"); ("ar", "ar-SA");
     ("nl", "nl-NL"); ("tr", "tr-TR"); ("pl", "pl-PL"); ("id", "id-ID");
     ("ta", "ta-IN"); ("bn", "bn-IN"); ("te", "te-IN"); ("kn", "kn-IN");
     ("ml", "ml-IN"); ("gu", "gu-IN"); ("mr", "mr-IN"); ("pa", "pa-IN")]%string.

(** [langMap] is an object literal, so [langMap[key]] also finds the members
    every object inherits from [Object.prototype]. They are functions or
    objects, not language tags. *)
Definition inheritedKeys : list jsstring :=
  map js
    ["constructor"; "toString"; "toLocaleString"; "valueOf"; "hasOwnProperty";
     "isPrototypeOf"; "propertyIsEnumerable"; "__proto__";
     "__defineGetter__"; "__defineSetter__"; "__lookupGetter__";
     "__lookupSetter__"]%string.

Fixpoint assoc (k : jsstring) (m : list (jsstring * jsstring))
  : option jsstring :=
  match m with
  | [] => None
  | (k', v) :: m' => if eqb k k' then Some v else assoc k m'
  end.

Definition priorityKeywords : list jsstring :=
  map js ["Natural"; "Google"; "Microsoft"; "Premium"; "Enhanced"]%string.

Definition maleKeywords : list jsstring :=
  map js
    ["Male"; "David"; "Mark"; "Guy"; "Daniel";
     "Pablo"; "Raul"; "Stefan"; "Hemant"; "Ravi";
     "Paul"; "Mathieu"; "Jerome";
     "Ichiro"; "Haruto"; "Takumi";
     "Tae-Theo"; "Min-Ho";
     "Ivan"; "Pavel";
     "Ahmet"; "Mehmet";
     "Budi";
     "Google US English"; "Microsoft Stefan"; "Microsoft Ravi";
     "Microsoft Hemant"]%string.

Definition femaleKeywords : list jsstring :=
  map js
    ["Female"; "Zira"; "Samantha"; "Google UK English Female";
     "Microsoft Kalpana"; "Microsoft Heera"; "Zira"; "Salli"; "Huihui";
     "Yaoyao"; "Haruka"; "Ayumi"]%string.

(** [kws.some(k => v.name.includes(k))] *)
Definition hasKeyword (kws : list jsstring) (v : Voice) : bool :=
  existsb (fun k => includes (name v) k) kws.

(** [v.lang.startsWith(langCode.split('-')[0])] *)
Definition speaksLang (langCode : jsstring) (v : Voice) : bool :=
  startsWith (lang v) (beforeHyphen langCode).

(** Lines 86-107: [bestVoice] among the voices of the language. *)
Definition pickVoice (gender : jsstring) (vs : list Voice) : option Voice :=
  match vs with
  | [] => None
  | _ :: _ =>
      if eqb gender (js "female") then
        orElse (find (fun v => hasKeyword femaleKeywords v
                               && hasKeyword priorityKeywords v) vs)
          (orElse (find (hasKeyword femaleKeywords) vs)
             (hd_error vs))
      else
        orElse (find (fun v => hasKeyword maleKeywords v
                               && hasKeyword priorityKeywords v) vs)
          (orElse (find (hasKeyword maleKeywords) vs)
             (orElse (find (fun v => negb (hasKeyword femaleKeywords v)) vs)
                (hd_error vs)))
  end.

(** Line 115. *)
Definition pitchFor (gender : jsstring) : Q :=
  if eqb gender (js "male") then 0.85%Q else 1.15%Q.

(** ** The platform objects the controller drives *)

(** What [this.audio.src] holds: nothing, the silent clip of [unlock], or the
    blob fetched by the remote call of the given number. *)
Inductive AudioSrc := SrcEmpty | SrcSilent | SrcBlob (call : nat).

(** [this.audio]. [listener] is the remote call whose [onended] and
    [onerror] handlers are installed on the element. *)
Record AudioElement := mkAudio {
  src : AudioSrc;
  paused : bool;
  currentTime : N;
  listener : option nat }.

(** Where a call of [playGoogleTTS] stands: waiting for [fetch] or [blob],
    or past line 179 with its promise created; then [playPending] tells
    whether the promise of [audio.play()] is still open and [settled]
    whether the promise of line 179 has been resolved or rejected.
    [Thrown]: building the URL raised, the promise of the call is rejected
    and the [speak] that awaits it has not been resumed yet. *)
Inductive Stage :=
| Fetching
| Playing (playPending settled : bool)
| Thrown.

Record RemoteCall := mkRemote {
  r_text : jsstring;
  r_base : jsstring;
  r_lang : jsstring;
  r_opts : Options;
  r_stage : Stage }.

(** The handlers [startListening] installs on the recogniser. *)
Record RecHooks := mkHooks {
  h_onResult : option Callback;
  h_onEnd : option Callback;
  h_onError : option Callback }.

Record World := mkWorld {
  ctl : Controller;
  synthQueue : list Utterance;   (* utterances handed to speechSynthesis *)
  synthStarted : bool;           (* the head of the queue is being spoken *)
  audio : AudioElement;
  recHooks : option RecHooks;
  recActive : bool;              (* the recogniser is capturing *)
  remote : list (nat * RemoteCall);
  unlocks : list AudioSrc;       (* originalSrc of the open unlock() calls *)
  nextCall : nat }.

(** What a run does to the outside, in order. *)
Inductive Event :=
| SynthCancel
| SynthSpeak (u : Utterance)
| AudioPause
| AudioSeek (t : N)
| AudioLoad (s : AudioSrc)
| AudioPlay
| EnterPlayGoogleTTS (text base : jsstring)
| Fetch (text base : jsstring)
| RecStart
| RecStop
| Invoke (cb : Callback) (args : list jsstring).

(** *** Field updates *)

Definition withCtl (f : Controller -> Controller) (w : World) : World :=
  mkWorld (f (ctl w)) (synthQueue w) (synthStarted w) (audio w) (recHooks w)
    (recActive w) (remote w) (unlocks w) (nextCall w).

Definition withSynth (q : list Utterance) (started : bool) (w : World) : World :=
  mkWorld (ctl w) q started (audio w) (recHooks w) (recActive w) (remote w)
    (unlocks w) (nextCall w).

Definition withAudio (f : AudioElement -> AudioElement) (w : World) : World :=
  mkWorld (ctl w) (synthQueue w) (synthStarted w) (f (audio w)) (recHooks w)
    (recActive w) (remote w) (unlocks w) (nextCall w).

Definition withRec (h : option RecHooks) (active : bool) (w : World) : World :=
  mkWorld (ctl w) (synthQueue w) (synthStarted w) (audio w) h active
    (remote w) (unlocks w) (nextCall w).

Definition withRemote (r : list (nat * RemoteCall)) (n : nat) (w : World)
  : World :=
  mkWorld (ctl w) (synthQueue w) (synthStarted w) (audio w) (recHooks w)
    (recActive w) r (unlocks w) n.

Definition withUnlocks (u : list AudioSrc) (w : World) : World :=
  mkWorld (ctl w) (synthQueue w) (synthStarted w) (audio w) (recHooks w)
    (recActive w) (remote w) u (nextCall w).

Definition setListening (b : bool) (c : Controller) : Controller :=
  mkController (recognition c) b (selectedVoice c) (voices c)
    (utteranceQueue c) (isSpeakingFlag c) (currentLang c) (preferredGender c)
    (preferredLang c) (defaultPitch c) (isGoogleSpeaking c).

Definition setSelectedVoice (v : option Voice) (c : Controller) : Controller :=
  mkController (recognition c) (isListening c) v (voices c)
    (utteranceQueue c) (isSpeakingFlag c) (currentLang c) (preferredGender c)
    (preferredLang c) (defaultPitch c) (isGoogleSpeaking c).

Definition setGoogleSpeaking (b : bool) (c : Controller) : Controller :=
  mkController (recognition c) (isListening c) (selectedVoice c) (voices c)
    (utteranceQueue c) (isSpeakingFlag c) (currentLang c) (preferredGender c)
    (preferredLang c) (defaultPitch c) b.

Fixpoint lookupCall (i : nat) (r : list (nat * RemoteCall))
  : option RemoteCall :=
  match r with
  | [] => None
  | (j, x) :: r' => if Nat.eqb i j then Some x else lookupCall i r'
  end.

Fixpoint removeCall (i : nat) (r : list (nat * RemoteCall))
  : list (nat * RemoteCall) :=
  match r with
  | [] => []
  | (j, x) :: r' =>
      if Nat.eqb i j then removeCall i r' else (j, x) :: removeCall i r'
  end.

Definition setStage (i : nat) (st : Stage) (r : list (nat * RemoteCall))
  : list (nat * RemoteCall) :=
  map (fun p => if Nat.eqb i (fst p)
                then (fst p, mkRemote (r_text (snd p)) (r_base (snd p))
                               (r_lang (snd p)) (r_opts (snd p)) st)
                else p) r.

(** *** Actions: state passing with the trace of events written out *)

Definition Act (A : Type) : Type := World -> A * World * list Event.

Definition ret {A : Type} (a : A) : Act A := fun w => (a, w, []).

Definition bind {A B : Type} (m : Act A) (k : A -> Act B) : Act B :=
  fun w =>
    let r1 := m w in
    let r2 := k (fst (fst r1)) (snd (fst r1)) in
    (fst (fst r2), snd (fst r2), snd r1 ++ snd r2).

Notation "x <- m ;; k" := (bind m (fun x => k))
  (at level 61, m at next level, right associativity).
Notation "m ;; k" := (bind m (fun _ => k))
  (at level 61, right associativity).

Definition get : Act World := fun w => (w, w, []).
Definition update (f : World -> World) : Act unit := fun w => (tt, f w, []).
Definition emit (e : Event) : Act unit := fun w => (tt, w, [e]).

Definition worldOf {A : Type} (r : A * World * list Event) : World :=
  snd (fst r).
Definition traceOf {A : Type} (r : A * World * list Event) : list Event :=
  snd r.

(** [if (cb) cb(args)] *)
Definition invoke (cb : option Callback) (args : list jsstring) : Act unit :=
  match cb with
  | Some f => emit (Invoke f args)
  | None => ret tt
  end.

(** *** Calls into the platform *)

(** [speechSynthesis.cancel()]: the queue is emptied. *)
Definition synthesis_cancel : Act unit :=
  emit SynthCancel ;; update (withSynth [] false).

(** [speechSynthesis.speak(u)]: [u] joins the queue. *)
Definition synthesis_speak (u : Utterance) : Act unit :=
  emit (SynthSpeak u) ;;
  update (fun w => withSynth (synthQueue w ++ [u]) (synthStarted w) w).

Definition audio_pause : Act unit :=
  emit AudioPause ;;
  update (withAudio (fun a => mkAudio (src a) true (currentTime a) (listener a))).

(** [audio.currentTime = t] *)
Definition audio_seek (t : N) : Act unit :=
  emit (AudioSeek t) ;;
  update (withAudio (fun a => mkAudio (src a) (paused a) t (listener a))).

(** [audio.src = s]: the element loads the new resource from its start and
    is paused until [play] is called. *)
Definition audio_load (s : AudioSrc) : Act unit :=
  emit (AudioLoad s) ;;
  update (withAudio (fun a => mkAudio s true 0 (listener a))).

Definition audio_play : Act unit :=
  emit AudioPlay ;;
  update (withAudio (fun a => mkAudio (src a) false (currentTime a) (listener a))).

(** [encodeURIComponent] raises [URIError] on a lone surrogate. *)
Definition isHigh (c : N) : bool := (55296 <=? c) && (c <=? 56319).
Definition isLow (c : N) : bool := (56320 <=? c) && (c <=? 57343).

Fixpoint encodable (s : jsstring) : bool :=
  match s with
  | [] => true
  | c :: s' =>
      if isLow c then false
      else if isHigh c then
        match s' with
        | d :: s'' => isLow d && encodable s''
        | [] => false
        end
      else encodable s'
  end.

(** *** Sample data for runs of the model *)

Definition usEnglish : Voice := mkVoice (js "Google US English") (js "en-US").

(** The scenario of the fourth test of section 8 of the specification. *)
Definition googleFrancais : Voice :=
  mkVoice (js "Google fran" ++ [231] ++ js "ais") (js "fr-FR").

(** The world right after construction on a platform with speech
    recognition whose catalogue holds [usEnglish]. *)
Definition startController : Controller :=
  mkController true false (Some usEnglish) [usEnglish] [] false (js "en-US")
    (js "female") (js "en-US") (Some 1.15%Q) false.

Definition startWorld : World :=
  mkWorld startController [] false (mkAudio SrcEmpty true 0 None) None false
    [] [] O.

Definition hiUtterance : Utterance :=
  mkUtterance (js "Hi.") (js "en-US") (Some usEnglish) 1.15%Q 0.9%Q None None.

(** [startWorld] while the utterance of [speak("Hi.")] is being spoken. *)
Definition speakingWorld : World := withSynth [hiUtterance] true startWorld.

(** [startWorld] after [startListening(undefined, onEnd, undefined)]. *)
Definition listeningWorld : World :=
  withRec (Some (mkHooks None (Some 7%nat) None)) true
    (withCtl (setListening true) startWorld).

Definition enUS : jsstring := js "en-US".

(** A lower-casing of the ASCII letters, to run the model. *)
Definition asciiLower (s : jsstring) : jsstring :=
  map (fun c => if (65 <=? c) && (c <=? 90) then c + 32 else c) s.

Section Platform.

Set Default Proof Using "Type".

(** [navigator.language], and [String.prototype.toLowerCase] of the host. *)
Variable navigatorLanguage : jsstring.
Variable toLowerCase : jsstring -> jsstring.

(** Lines 53-67: the tag [langCode] that [language] is normalised to.
    [None] when [language] names an inherited member of [langMap]: then
    [langCode] is not a string (line 69 raises a TypeError on a non-empty
    catalogue, and [currentLang] becomes a non-string on an empty one), and
    the call is outside this model. *)
Definition normalizeLang (language : jsstring) : option jsstring :=
  let langCode :=
    if eqb language (js "auto") then strOr (Some navigatorLanguage) (js "en-US")
    else language in
  match assoc language langMap with
  | Some full => Some (strOr (Some full) langCode)
  | None =>
      if existsb (eqb language) inheritedKeys then None else Some langCode
  end.

Definition setVoice (gender language : jsstring) (c : Controller)
  : option Controller :=
  match normalizeLang language with
  | None => None
  | Some langCode =>
      let filtered := filter (speaksLang langCode) (voices c) in
      let bestVoice := pickVoice gender filtered in
      Some {| recognition := recognition c;
              isListening := isListening c;
              selectedVoice := bestVoice;
              voices := voices c;
              utteranceQueue := utteranceQueue c;
              isSpeakingFlag := isSpeakingFlag c;
              currentLang := langCode;
              preferredGender := gender;
              preferredLang := language;
              defaultPitch := Some (pitchFor gender);
              isGoogleSpeaking := isGoogleSpeaking c |}
  end.

(** Lines 43-49, with [vs] the answer of [this.synthesis.getVoices()]. *)
Definition loadVoices (vs : list Voice) (c : Controller) : option Controller :=
  let c1 := {| recognition := recognition c;
               isListening := isListening c;
               selectedVoice := selectedVoice c;
               voices := vs;
               utteranceQueue := utteranceQueue c;
               isSpeakingFlag := isSpeakingFlag c;
               currentLang := currentLang c;
               preferredGender := preferredGender c;
               preferredLang := preferredLang c;
               defaultPitch := defaultPitch c;
               isGoogleSpeaking := isGoogleSpeaking c |} in
  match vs with
  | [] => Some c1
  | _ :: _ => setVoice (preferredGender c1) (preferredLang c1) c1
  end.

(** Lines 141-143. *)
Definition getAvailableVoices (c : Controller) : list Voice :=
  map (fun v => mkVoice (name v) (lang v)) (voices c).

(** *** Speaking (lines 263-335) *)

Definition stopSpeaking : Act unit :=
  synthesis_cancel ;;
  audio_pause ;;
  audio_seek 0 ;;
  update (withCtl (setGoogleSpeaking false)).

(** Line 266: [options.lang || this.currentLang]. *)
Definition effectiveLang (opts : Options) (c : Controller) : jsstring :=
  strOr (o_lang opts) (currentLang c).

(** Line 283. *)
Definition needsFallback (base : jsstring) (c : Controller) : bool :=
  eqb base (js "ta")
  || negb (existsb (fun v => startsWith (lang v) base) (voices c)).

(** Lines 312-315. *)
Definition pitchShifted (c : Controller) : bool :=
  eqb (preferredGender c) (js "male")
  && match selectedVoice c with
     | Some v =>
         negb (includes (toLowerCase (name v)) (js "male"))
         && negb (includes (toLowerCase (name v)) (js "david"))
         && negb (includes (toLowerCase (name v)) (js "mark"))
     | None => false
     end.

(** Lines 307-324: the utterance of the sentence at [index] of [count]. *)
Definition utteranceFor (c : Controller) (tag : jsstring) (opts : Options)
    (count index : nat) (sentence : jsstring) : Utterance :=
  mkUtterance (trim sentence) tag (selectedVoice c)
    (if pitchShifted c then 0.7%Q
     else numOr (o_pitch opts) (numOr (defaultPitch c) 1.0%Q))
    (if pitchShifted c then 0.95%Q else numOr (o_rate opts) 0.9%Q)
    (if Nat.eqb index 0 then o_onStart opts else None)
    (if Nat.eqb index (count - 1) then o_onEnd opts else None).

(** The [forEach] of lines 305-327. Nothing in its body writes to the
    controller, so the controller is read once. *)
Fixpoint speakSentences (c : Controller) (tag : jsstring) (opts : Options)
    (count index : nat) (sentences : list jsstring) : Act unit :=
  match sentences with
  | [] => ret tt
  | sentence :: rest =>
      (match trim sentence with
       | [] => ret tt
       | _ :: _ => synthesis_speak (utteranceFor c tag opts count index sentence)
       end) ;;
      speakSentences c tag opts count (S index) rest
  end.

(** Lines 297-327, the native path. *)
Definition speakLocal (tag base readable : jsstring) (opts : Options)
  : Act unit :=
  w <- get ;;
  (match selectedVoice (ctl w), voices (ctl w) with
   | None, _ :: _ =>
       update (withCtl (setSelectedVoice
         (orElse (find (fun v => startsWith (lang v) base) (voices (ctl w)))
                 (hd_error (voices (ctl w))))))
   | _, _ => ret tt
   end) ;;
  w' <- get ;;
  let sentences := sentencesOf readable in
  speakSentences (ctl w') tag opts (List.length sentences) 0 sentences.

(** Lines 166-172, [playGoogleTTS] up to its return to the caller: with the
    request on its way, or, when building the URL raised, after line 211
    has caught the error, cleared the flag and rejected the promise of the
    call. *)
Definition playGoogleTTS (text base tag : jsstring) (opts : Options)
  : Act unit :=
  emit (EnterPlayGoogleTTS text base) ;;
  update (withCtl (setGoogleSpeaking true)) ;;
  if encodable text then
    emit (Fetch text base) ;;
    update (fun w =>
      withRemote ((nextCall w, mkRemote text base tag opts Fetching) :: remote w)
                 (S (nextCall w)) w)
  else
    update (withCtl (setGoogleSpeaking false)) ;;
    update (fun w =>
      withRemote ((nextCall w, mkRemote text base tag opts Thrown) :: remote w)
                 (S (nextCall w)) w).

(** Lines 286-289, the [try] block up to the [await] of line 289, where
    [speak] is suspended and returns to its caller, also when the promise
    it awaits is rejected already: the [catch] of line 292 and the native
    path run when [speak] is resumed, after the caller has run on. *)
Definition speakRemote (tag base readable : jsstring) (opts : Options)
  : Act unit :=
  invoke (o_onStart opts) [] ;;
  playGoogleTTS readable base tag opts.

(** [speak], up to its return or its suspension at line 289. *)
Definition speak (text : jsstring) (opts : Options) : Act unit :=
  stopSpeaking ;;
  w <- get ;;
  let tag := effectiveLang opts (ctl w) in
  let base := beforeHyphen tag in
  let readable := sanitize text in
  if needsFallback base (ctl w) then speakRemote tag base readable opts
  else speakLocal tag base readable opts.

(** The rest of a suspended [speak] once [playGoogleTTS] has failed:
    lines 292-327. *)
Definition resumeFailed (r : RemoteCall) : Act unit :=
  speakLocal (r_lang r) (r_base r) (r_text r) (r_opts r).

(** The rest of a suspended [speak] once [playGoogleTTS] has completed:
    lines 290-291. *)
Definition resumeDone (r : RemoteCall) : Act unit :=
  invoke (o_onEnd (r_opts r)) [].

(** *** Unlocking (lines 149-164) *)

Definition unlock : Act unit :=
  w <- get ;;
  audio_load SrcSilent ;;
  audio_play ;;
  update (fun w' => withUnlocks (unlocks w' ++ [src (audio w)]) w').

(** *** Listening (lines 218-261) *)

(** [recognition.start()] raises [InvalidStateError] while the recogniser is
    still capturing. *)
Definition startListening (onResult onEnd onError : option Callback)
  : Act unit :=
  w <- get ;;
  if negb (recognition (ctl w)) || isListening (ctl w) then ret tt
  else
    update (fun w' => withRec (Some (mkHooks onResult onEnd onError))
                        (recActive w') w') ;;
    update (withCtl (setListening true)) ;;
    if recActive w then update (withCtl (setListening false))
    else emit RecStart ;; update (fun w' => withRec (recHooks w') true w').

Definition stopListening : Act unit :=
  w <- get ;;
  if recognition (ctl w) && isListening (ctl w) then
    emit RecStop ;;
    update (withCtl (setListening false))
  else ret tt.

(** Lines 221-234: the transcripts of a result event, each result given as
    [(isFinal, transcript)], from [resultIndex] on. *)
Definition transcripts (results : list (bool * jsstring))
  : jsstring * jsstring :=
  (concat (map snd (filter (fun r => fst r) results)),
   concat (map snd (filter (fun r => negb (fst r)) results))).

(** ** The controller as a transition system *)

(** The public methods, and the notifications the platform delivers between
    them. [testVoice] is [speak] at a phrase of its table without options.
    [Resumed]: a [speak] that awaits a call of [playGoogleTTS] which raised
    at once goes on at line 292. The host resumes it once the code that
    called [speak] has returned; the model lets it go on at any later step,
    which allows every order the host can produce. *)
Inductive Op :=
| CallLoadVoices (vs : list Voice)
| CallSetVoice (gender language : jsstring)
| CallUnlock
| CallStartListening (onResult onEnd onError : option Callback)
| CallStopListening
| CallSpeak (text : jsstring) (opts : Options)
| CallStopSpeaking
| Resumed (call : nat)
| FetchFailed (call : nat)
| FetchArrived (call : nat)
| PlayStarted (call : nat)
| PlayRejected (call : nat)
| AudioEnded (position : N)
| AudioFailed
| UnlockPlayed
| UnlockFailed
| UtteranceStarted
| UtteranceEnded
| RecResult (results : list (bool * jsstring))
| RecEnded
| RecError (code : jsstring).

Definition done (a : Act unit) (w : World) : option (World * list Event) :=
  Some (worldOf (a w), traceOf (a w)).

Definition liftCtl (f : Controller -> option Controller) (w : World)
  : option (World * list Event) :=
  match f (ctl w) with
  | Some c => Some (withCtl (fun _ => c) w, [])
  | None => None
  end.

(** The handlers of lines 186-199 and 204-209 clear the flag whether or not
    the promise of line 179 is still open; only an open promise resumes
    [speak]. *)
Definition settle (call : nat) (ok : bool) : Act unit :=
  update (withCtl (setGoogleSpeaking false)) ;;
  w <- get ;;
  match lookupCall call (remote w) with
  | Some r =>
      match r_stage r with
      | Playing pending false =>
          update (fun w' => withRemote
                    (setStage call (Playing pending true) (remote w'))
                    (nextCall w') w') ;;
          if ok then resumeDone r else resumeFailed r
      | _ => ret tt
      end
  | None => ret tt
  end.

(** One step. [None]: the notification cannot be delivered in this state, or
    the call leaves the model (see [normalizeLang]). *)
Definition exec (op : Op) (w : World) : option (World * list Event) :=
  match op with
  | CallLoadVoices vs => liftCtl (loadVoices vs) w
  | CallSetVoice gender language => liftCtl (setVoice gender language) w
  | CallUnlock => done unlock w
  | CallStartListening onResult onEnd onError =>
      done (startListening onResult onEnd onError) w
  | CallStopListening => done stopListening w
  | CallSpeak text opts => done (speak text opts) w
  | CallStopSpeaking => done stopSpeaking w
  | Resumed call =>
      match lookupCall call (remote w) with
      | Some r =>
          match r_stage r with
          | Thrown =>
              done (update (fun w' => withRemote (removeCall call (remote w'))
                                        (nextCall w') w') ;;
                    resumeFailed r) w
          | _ => None
          end
      | None => None
      end
  | FetchFailed call =>
      match lookupCall call (remote w) with
      | Some r =>
          match r_stage r with
          | Fetching =>
              done (update (withCtl (setGoogleSpeaking false)) ;;
                    update (fun w' => withRemote (removeCall call (remote w'))
                                        (nextCall w') w') ;;
                    resumeFailed r) w
          | _ => None
          end
      | None => None
      end
  | FetchArrived call =>
      match lookupCall call (remote w) with
      | Some r =>
          match r_stage r with
          | Fetching =>
              done (audio_load (SrcBlob call) ;;
                    update (withAudio (fun a =>
                      mkAudio (src a) (paused a) (currentTime a) (Some call))) ;;
                    audio_play ;;
                    update (fun w' => withRemote
                              (setStage call (Playing true false) (remote w'))
                              (nextCall w') w')) w
          | _ => None
          end
      | None => None
      end
  | PlayStarted call =>
      match lookupCall call (remote w) with
      | Some r =>
          match r_stage r with
          | Playing true s =>
              done (update (fun w' => withRemote
                              (setStage call (Playing false s) (remote w'))
                              (nextCall w') w')) w
          | _ => None
          end
      | None => None
      end
  | PlayRejected call =>
      match lookupCall call (remote w) with
      | Some r =>
          match r_stage r with
          | Playing true s =>
              done (update (fun w' => withRemote
                              (setStage call (Playing false s) (remote w'))
                              (nextCall w') w') ;;
                    settle call false) w
          | _ => None
          end
      | None => None
      end
  | AudioEnded position =>
      if paused (audio w) then None
      else
        done (update (withAudio (fun a =>
                mkAudio (src a) true position (listener a))) ;;
              match listener (audio w) with
              | Some call => settle call true
              | None => ret tt
              end) w
  | AudioFailed =>
      done (update (withAudio (fun a =>
              mkAudio (src a) true (currentTime a) (listener a))) ;;
            match listener (audio w) with
            | Some call => settle call false
            | None => ret tt
            end) w
  | UnlockPlayed =>
      match unlocks w with
      | original :: rest =>
          done (update (withUnlocks rest) ;;
                match original with
                | SrcBlob _ => audio_load original
                | _ => ret tt
                end) w
      | [] => None
      end
  | UnlockFailed =>
      match unlocks w with
      | _ :: rest => done (update (withUnlocks rest)) w
      | [] => None
      end
  | UtteranceStarted =>
      match synthQueue w, synthStarted w with
      | u :: q, false =>
          done (update (withSynth (u :: q) true) ;; invoke (u_onstart u) []) w
      | _, _ => None
      end
  | UtteranceEnded =>
      match synthQueue w, synthStarted w with
      | u :: q, true =>
          done (update (withSynth q false) ;; invoke (u_onend u) []) w
      | _, _ => None
      end
  | RecResult results =>
      match recActive w, recHooks w with
      | true, Some h =>
          done (invoke (h_onResult h)
                  [fst (transcripts results); snd (transcripts results)]) w
      | _, _ => None
      end
  | RecEnded =>
      match recActive w, recHooks w with
      | true, Some h =>
          done (update (fun w' => withRec (recHooks w') false w') ;;
                update (withCtl (setListening false)) ;;
                invoke (h_onEnd h) []) w
      | _, _ => None
      end
  | RecError code =>
      match recActive w, recHooks w with
      | true, Some h =>
          done (update (withCtl (setListening false)) ;;
                invoke (h_onError h) [code]) w
      | _, _ => None
      end
  end.

(** The constructor and [init] (lines 5-41). Without speech recognition
    [init] returns before the voices are loaded. *)
Definition freshController : Controller :=
  mkController false false None [] [] false (js "en-US") (js "female")
    (js "en-US") None false.

Definition freshWorld (c : Controller) : World :=
  mkWorld c [] false (mkAudio SrcEmpty true 0 None) None false [] [] O.

Definition newController (hasRecognition : bool) (vs : list Voice)
  : option World :=
  if hasRecognition then
    let c := mkController true false None [] [] false (js "en-US")
               (js "female") (js "en-US") None false in
    option_map freshWorld (loadVoices vs c)
  else Some (freshWorld freshController).

Inductive reachable : World -> Prop :=
| reach_new : forall hasRecognition vs w,
    newController hasRecognition vs = Some w -> reachable w
| reach_step : forall w op w' tr,
    reachable w -> exec op w = Some (w', tr) -> reachable w'.

(** A run of operations from a state, with its trace. *)
Fixpoint execAll (ops : list Op) (w : World) : option (World * list Event) :=
  match ops with
  | [] => Some (w, [])
  | op :: rest =>
      match exec op w with
      | Some (w1, t1) =>
          match execAll rest w1 with
          | Some (w2, t2) => Some (w2, t1 ++ t2)
          | None => None
          end
      | None => None
      end
  end.

(** ** Vocabulary of the properties *)

Definition startsSpace (s : jsstring) : bool :=
  match s with
  | c :: _ => isSpace c
  | [] => false
  end.

(** Every white-space unit is a single space standing alone; [afterSpace]
    tells whether the unit before the text is a space. *)
Fixpoint collapsedAfter (afterSpace : bool) (s : jsstring) : Prop :=
  match s with
  | [] => True
  | c :: s' =>
      if isSpace c then c = 32 /\ afterSpace = false /\ collapsedAfter true s'
      else collapsedAfter false s'
  end.

Definition plain (s : jsstring) : Prop :=
  Forall (fun c => c <> backtick /\ c <> dollar /\ c <> lbracket) s.

(** The utterances the [forEach] of [speak] submits. *)
Fixpoint utterancesOf (c : Controller) (tag : jsstring) (opts : Options)
    (count index : nat) (sentences : list jsstring) : list Utterance :=
  match sentences with
  | [] => []
  | sentence :: rest =>
      match trim sentence with
      | [] => utterancesOf c tag opts count (S index) rest
      | _ :: _ =>
          utteranceFor c tag opts count index sentence
          :: utterancesOf c tag opts count (S index) rest
      end
  end.

(** The voice the native path settles on (lines 298-301). *)
Definition adoptVoice (base : jsstring) (c : Controller) : Controller :=
  match selectedVoice c, voices c with
  | None, _ :: _ =>
      setSelectedVoice
        (orElse (find (fun v => startsWith (lang v) base) (voices c))
                (hd_error (voices c))) c
  | _, _ => c
  end.

Definition localUtterances (tag base readable : jsstring) (opts : Options)
    (c : Controller) : list Utterance :=
  utterancesOf (adoptVoice base c) tag opts
    (List.length (sentencesOf readable)) 0 (sentencesOf readable).

(** The events an optional callback contributes. *)
Definition invoked (cb : option Callback) (args : list jsstring)
  : list Event :=
  match cb with
  | Some f => [Invoke f args]
  | None => []
  end.

Definition isRemoteCall (e : Event) : bool :=
  match e with
  | EnterPlayGoogleTTS _ _ => true
  | _ => false
  end.

(** The remote path is attempted: [playGoogleTTS] is called. *)
Definition remoteAttempted (tr : list Event) : bool :=
  existsb isRemoteCall tr.

(** The utterances a trace hands to the synthesiser. *)
Definition spoken (tr : list Event) : list Utterance :=
  flat_map (fun e => match e with SynthSpeak u => [u] | _ => [] end) tr.

Definition keepsFlag {A : Type} (a : Act A) : Prop :=
  forall w, isSpeakingFlag (ctl (worldOf (a w))) = isSpeakingFlag (ctl w).

(** Nothing is being spoken, locally or remotely. *)
Definition quiet (w : World) : Prop :=
  synthQueue w = [] /\ synthStarted w = false
  /\ paused (audio w) = true /\ isGoogleSpeaking (ctl w) = false.

(** The audio element back at its start. *)
Definition rewound (w : World) : World :=
  withAudio (fun a => mkAudio (src a) (paused a) 0 (listener a)) w.

(** A code unit that [sanitize] keeps as it is on a text without markup:
    neither white space nor an emphasis marker. *)
Definition solid (c : N) : bool := negb (isSpace c) && negb (isMarker c).

(** What is spoken in place of a fenced block whose text is [body]. *)
Definition codeNotice (body : jsstring) : jsstring :=
  js " Here is the " ++ takeWhile isWord body ++ js " code. End of code. ".

Definition noBacktick (s : jsstring) : Prop :=
  Forall (fun c => (c =? backtick) = false) s.

(** A sentence as line 303 cuts it: a non-empty run without terminator,
    then terminators only. *)
Definition sentenceShape (x : jsstring) : Prop :=
  takeWhile notTerminator x <> []
  /\ Forall (fun c => isTerminator c = true) (dropWhile notTerminator x).

(** The sentence ends in a terminator. *)
Definition terminated (x : jsstring) : Prop :=
  dropWhile notTerminator x <> [].

(** The sentence that starts a text, and the rest of the text after it. *)
Definition firstSentence (s : jsstring) : jsstring :=
  takeWhile notTerminator s
  ++ takeWhile isTerminator (dropWhile notTerminator s).

Definition afterSentence (s : jsstring) : jsstring :=
  dropWhile isTerminator (dropWhile notTerminator s).

(** The text does not end in white space. *)
Definition lastSolid (s : jsstring) : Prop :=
  forall pre c, s = pre ++ [c] -> isSpace c = false.

(** The sentences of the [forEach] of line 305 with their indices. *)
Definition indexed (from : nat) (sentences : list jsstring)
  : list (nat * jsstring) :=
  combine (seq from (List.length sentences)) sentences.

(** The keywords [setVoice] looks for first: the female ones for a female
    request, the male ones for every other gender (lines 89-106). *)
Definition genderKeywords (gender : jsstring) : list jsstring :=
  if eqb gender (js "female") then femaleKeywords else maleKeywords.

(** An action leaves a view of the world as it is. *)
Definition keepsView {A X : Type} (view : World -> X) (a : Act A) : Prop :=
  forall w, view (worldOf (a w)) = view w.

(** What the listening methods work on, and what the speaking methods work
    on: everything else, the listening flag masked. *)
Definition listeningPart (w : World)
  : bool * bool * option RecHooks * bool :=
  (recognition (ctl w), isListening (ctl w), recHooks w, recActive w).

Definition speechPart (w : World)
  : Controller * list Utterance * bool * AudioElement
    * list (nat * RemoteCall) * list AudioSrc * nat :=
  (setListening false (ctl w), synthQueue w, synthStarted w, audio w,
   remote w, unlocks w, nextCall w).

(** What only the constructor and [loadVoices] set. *)
Definition fixedPart (w : World) : bool * list Voice :=
  (recognition (ctl w), voices (ctl w)).

Definition isListeningOp (op : Op) : bool :=
  match op with
  | CallStartListening _ _ _ | CallStopListening
  | RecResult _ | RecEnded | RecError _ => true
  | _ => false
  end.

Definition isLoadVoices (op : Op) : bool :=
  match op with
  | CallLoadVoices _ => true
  | _ => false
  end.

(** The remote call that [speak] registers when it takes the remote path in
    the world [w]. *)
Definition remoteCallOf (text : jsstring) (opts : Options) (w : World)
  : RemoteCall :=
  mkRemote (sanitize text)
    (beforeHyphen (effectiveLang opts (ctl w)))
    (effectiveLang opts (ctl w)) opts Fetching.

(** The events of [speak] up to the request of the remote path. *)
Definition remoteStart (text : jsstring) (opts : Options) (w : World)
  : list Event :=
  [SynthCancel; AudioPause; AudioSeek 0]
  ++ invoked (o_onStart opts) []
  ++ [EnterPlayGoogleTTS (sanitize text)
        (beforeHyphen (effectiveLang opts (ctl w)));
      Fetch (sanitize text) (beforeHyphen (effectiveLang opts (ctl w)))].

(** The listening flag is true only while the recogniser is capturing, and
    the recogniser captures only with handlers installed, on a platform
    that has one. *)
Definition listeningSound (w : World) : Prop :=
  (isListening (ctl w) = true ->
   recognition (ctl w) = true /\ recActive w = true)
  /\ (recActive w = true ->
      recognition (ctl w) = true /\ recHooks w <> None).

(** ** The voice button of the page (astra_script.js, lines 611-647)

    The page keeps [isRecording] beside the controller and hands three
    closures to [startListening]. Only the recogniser's handlers hold
    them, and each handler calls its closure as its last step, so the page
    runs them right after the controller's step. What they do to the
    document (button class, status text) is left out, but for the input
    field. *)

Definition cbResult : Callback := 1%nat.
Definition cbEnd : Callback := 2%nat.
Definition cbError : Callback := 3%nat.

Record Page := mkPage {
  isRecording : bool;
  userInput : jsstring;       (* userInput.value *)
  controller : World }.

(** What the page does to the outside: the controller's events, a chat
    message on its way to the server, a system message in the chat. *)
Inductive PageEvent :=
| OfController (e : Event)
| ChatSent (message : jsstring)
| VoiceError (code : jsstring).

Definition PageAct : Type := Page -> Page * list PageEvent.

Definition andThen (f g : PageAct) : PageAct :=
  fun p => (fst (g (fst (f p))), snd (f p) ++ snd (g (fst (f p)))).

(** A call of a controller method from the page. *)
Definition callController (a : Act unit) : PageAct :=
  fun p =>
    (mkPage (isRecording p) (userInput p) (worldOf (a (controller p))),
     map OfController (traceOf (a (controller p)))).

Definition setInput (text : jsstring) : PageAct :=
  fun p => (mkPage (isRecording p) text (controller p), []).

Definition setRecording (b : bool) : PageAct :=
  fun p => (mkPage b (userInput p) (controller p), []).

(** [sendMessage], lines 660-691, up to its request to the server. *)
Definition sendMessage : PageAct :=
  fun p =>
    match trim (userInput p) with
    | [] => (p, [])
    | (_ :: _) as message =>
        andThen (callController unlock)
          (andThen (setInput [])
             (fun q => (q, [ChatSent message]))) p
    end.

(** The first closure, lines 624-634. *)
Definition onResult (final interim : jsstring) : PageAct :=
  andThen
    (match interim with
     | [] => fun p => (p, [])
     | _ :: _ => setInput interim
     end)
    (match final with
     | [] => fun p => (p, [])
     | _ :: _ =>
         andThen (setInput final)
           (andThen (callController unlock)
              (andThen (callController stopListening) sendMessage))
     end).

(** The second and the third closure, lines 635-645. *)
Definition onEnd : PageAct := setRecording false.

Definition onError (code : jsstring) : PageAct :=
  andThen (setRecording false) (fun p => (p, [VoiceError code])).

(** Lines 611-647. *)
Definition toggleVoiceInput : PageAct :=
  fun p =>
    if isRecording p then callController stopListening p
    else
      andThen (setRecording true)
        (callController
           (startListening (Some cbResult) (Some cbEnd) (Some cbError))) p.

(** The closure a recogniser handler calls. *)
Definition dispatch (e : Event) : PageAct :=
  match e with
  | Invoke cb args =>
      if Nat.eqb cb cbResult then
        onResult (nth 0 args []) (nth 1 args [])
      else if Nat.eqb cb cbEnd then onEnd
      else if Nat.eqb cb cbError then onError (nth 0 args [])
      else fun p => (p, [])
  | _ => fun p => (p, [])
  end.

Fixpoint dispatchAll (tr : list Event) : PageAct :=
  match tr with
  | [] => fun p => (p, [])
  | e :: rest => andThen (dispatch e) (dispatchAll rest)
  end.

(** What happens on the page: a click on the voice button, typing into the
    input field, and a step of the controller that is not the page's own
    call of [startListening] or [stopListening]: a notification of the
    platform, or one of the page's other calls ([setVoice], [speak],
    [stopSpeaking], [unlock]), whose callbacks are other closures. *)
Inductive PageOp :=
| ClickVoice
| TypeInput (text : jsstring)
| Step (op : Op).

Definition pageExec (o : PageOp) (p : Page) : option (Page * list PageEvent) :=
  match o with
  | ClickVoice => Some (toggleVoiceInput p)
  | TypeInput text => Some (setInput text p)
  | Step op =>
      match op with
      | CallStartListening _ _ _ | CallStopListening => None
      | _ =>
          match exec op (controller p) with
          | Some (w', tr) =>
              Some (andThen
                      (fun q => (mkPage (isRecording q) (userInput q) w',
                                 map OfController tr))
                      (if isListeningOp op then dispatchAll tr
                       else fun q => (q, [])) p)
          | None => None
          end
      end
  end.

Inductive pageReachable : Page -> Prop :=
| page_new : forall hasRecognition vs w,
    newController hasRecognition vs = Some w ->
    pageReachable (mkPage false [] w)
| page_step : forall p o p' out,
    pageReachable p -> pageExec o p = Some (p', out) -> pageReachable p'.

(** The handlers the page installs. *)
Definition pageHooks : RecHooks :=
  mkHooks (Some cbResult) (Some cbEnd) (Some cbError).

(** What holds of the page at all times: a listening controller has the
    page recording, and the recogniser's handlers are the page's. *)
Definition pageSound (p : Page) : Prop :=
  reachable (controller p)
  /\ (isListening (ctl (controller p)) = true -> isRecording p = true)
  /\ (forall h, recHooks (controller p) = Some h -> h = pageHooks).

(** A page action that keeps the page sound and the recording flag. *)
Definition keepsPage (f : PageAct) : Prop :=
  forall q, pageSound q ->
    pageSound (fst (f q)) /\ isRecording (fst (f q)) = isRecording q.

(** * Properties *)

(** ** Scanning lemmas *)

Section Scanning.

Variable m : matcher.

(** A matcher whose matches all begin with a code unit of [trigger] leaves
    a text without such units alone. *)
Lemma replaceAll_untriggered (trigger : N -> bool) :
  (forall s rep n, m s = Some (rep, n) ->
     exists c s', s = c :: s' /\ trigger c = true) ->
  forall s, (forall c, In c s -> trigger c = false) -> replaceAll m s = s.
Proof.
  intros Hm. unfold replaceAll.
  induction s as [|c s IH]; intros Hfree; simpl; [reflexivity|].
  destruct (m (c :: s)) as [[rep n]|] eqn:E.
  - destruct (Hm _ _ _ E) as (c' & s' & Heq & Ht).
    injection Heq as <- <-.
    rewrite (Hfree c) in Ht by (left; reflexivity). discriminate.
  - f_equal. apply IH. intros d Hd. apply Hfree. right; exact Hd.
Qed.

Lemma replaceFrom_skipn : forall k s,
  replaceFrom m k s = replaceFrom m O (skipn k s).
Proof.
  induction k as [|k IH]; intros [|c s]; simpl; try reflexivity.
  apply IH.
Qed.

End Scanning.

Lemma skipn_takeWhile (p : N -> bool) : forall s,
  skipn (List.length (takeWhile p s)) s = dropWhile p s.
Proof.
  induction s as [|c s IH]; simpl; [reflexivity|].
  destruct (p c); simpl; [exact IH | reflexivity].
Qed.

Lemma startsWith_head : forall s c p,
  startsWith s (c :: p) = true -> exists s', s = c :: s'.
Proof.
  intros [|d s] c p H; simpl in H; [discriminate|].
  apply andb_true_iff in H. destruct H as [H _].
  apply N.eqb_eq in H. subst d. exists s. reflexivity.
Qed.

(** ** The sanitiser *)

Lemma matchFence_head : forall s rep n,
  matchFence s = Some (rep, n) ->
  exists c s', s = c :: s' /\ (c =? backtick) = true.
Proof.
  intros s rep n H. unfold matchFence in H.
  destruct (startsWith s fence) eqn:E; [|discriminate].
  destruct (startsWith_head _ _ _ E) as [s' ->].
  exists backtick, s'. split; reflexivity.
Qed.

Lemma matchDelimited_head : forall d wrap s rep n,
  matchDelimited d wrap s = Some (rep, n) ->
  exists c s', s = c :: s' /\ (c =? d) = true.
Proof.
  intros d wrap [|c s] rep n H; simpl in H; [discriminate|].
  destruct (c =? d) eqn:E; [|discriminate].
  exists c, s. split; [reflexivity | exact E].
Qed.

Lemma matchBlockMath_head : forall s rep n,
  matchBlockMath s = Some (rep, n) ->
  exists c s', s = c :: s' /\ (c =? dollar) = true.
Proof.
  intros s rep n H. unfold matchBlockMath in H.
  destruct (startsWith s ddollar) eqn:E; [|discriminate].
  destruct (startsWith_head _ _ _ E) as [s' ->].
  exists dollar, s'. split; reflexivity.
Qed.

Lemma matchLink_head : forall s rep n,
  matchLink s = Some (rep, n) ->
  exists c s', s = c :: s' /\ (c =? lbracket) = true.
Proof.
  intros [|c s] rep n H; simpl in H; [discriminate|].
  destruct (c =? lbracket) eqn:E; [|discriminate].
  exists c, s. split; [reflexivity | exact E].
Qed.

Lemma matchMarker_head : forall s rep n,
  matchMarker s = Some (rep, n) ->
  exists c s', s = c :: s' /\ isMarker c = true.
Proof.
  intros [|c s] rep n H; simpl in H; [discriminate|].
  destruct (isMarker c) eqn:E; [|discriminate].
  exists c, s. split; [reflexivity | exact E].
Qed.

Lemma replaceAll_spaces_cons : forall c s,
  replaceAll matchSpaces (c :: s) =
  if isSpace c then 32 :: replaceAll matchSpaces (dropWhile isSpace s)
  else c :: replaceAll matchSpaces s.
Proof.
  intros c s. unfold replaceAll. simpl.
  destruct (isSpace c); [|reflexivity].
  simpl. rewrite replaceFrom_skipn, skipn_takeWhile. reflexivity.
Qed.

Lemma dropWhile_length (p : N -> bool) : forall s,
  (List.length (dropWhile p s) <= List.length s)%nat.
Proof.
  induction s as [|c s IH]; simpl; [lia|].
  destruct (p c); simpl; lia.
Qed.

Lemma dropWhile_startsSpace : forall s,
  startsSpace (dropWhile isSpace s) = false.
Proof.
  induction s as [|c s IH]; simpl; [reflexivity|].
  destruct (isSpace c) eqn:E; [exact IH | simpl; exact E].
Qed.

Lemma spaces_collapsed : forall n s b,
  (List.length s <= n)%nat ->
  (b = true -> startsSpace s = false) ->
  collapsedAfter b (replaceAll matchSpaces s).
Proof.
  induction n as [|n IH]; intros [|c s] b Hlen Hb; simpl in Hlen;
    try exact I; try lia.
  rewrite replaceAll_spaces_cons. simpl in Hb.
  destruct (isSpace c) eqn:E.
  - simpl. split; [reflexivity|]. split.
    + destruct b; [specialize (Hb eq_refl); discriminate | reflexivity].
    + apply IH.
      * pose proof (dropWhile_length isSpace s). lia.
      * intros _. apply dropWhile_startsSpace.
  - simpl. rewrite E. apply IH; [lia | discriminate].
Qed.

Lemma collapsed_fixed : forall s b,
  collapsedAfter b s -> replaceAll matchSpaces s = s.
Proof.
  induction s as [|c s IH]; intros b H; [reflexivity|].
  rewrite replaceAll_spaces_cons. simpl in H.
  destruct (isSpace c) eqn:E.
  - destruct H as (-> & _ & H). f_equal.
    destruct s as [|d s]; [reflexivity|].
    simpl. simpl in H. destruct (isSpace d) eqn:Ed.
    + destruct H as (_ & Hf & _). discriminate.
    + apply (IH false). simpl. rewrite Ed. exact H.
  - f_equal. apply (IH false). exact H.
Qed.

Lemma collapsed_dropWhile : forall s b,
  collapsedAfter b s -> collapsedAfter false (dropWhile isSpace s).
Proof.
  induction s as [|c s IH]; intros b H; simpl; [exact I|].
  simpl in H. destruct (isSpace c) eqn:E.
  - destruct H as (_ & _ & H). apply (IH true). exact H.
  - simpl. rewrite E. exact H.
Qed.

Lemma collapsed_trimEnd : forall s b,
  collapsedAfter b s -> collapsedAfter b (trimEnd s).
Proof.
  induction s as [|c s IH]; intros b H; simpl; [exact I|].
  simpl in H.
  destruct (trimEnd s) as [|d r] eqn:Er.
  - destruct (isSpace c) eqn:E; simpl; [exact I | rewrite E; exact I].
  - change (collapsedAfter b (c :: d :: r)).
    cbn [collapsedAfter]. destruct (isSpace c).
    + destruct H as (H1 & H2 & H3). split; [exact H1|]. split; [exact H2|].
      apply (IH true). exact H3.
    + apply (IH false). exact H.
Qed.

Lemma trimEnd_startsSpace : forall s,
  startsSpace s = false -> startsSpace (trimEnd s) = false.
Proof.
  intros [|c s] H; simpl; [reflexivity|].
  simpl in H. destruct (trimEnd s); [rewrite H|]; simpl; auto.
Qed.

Lemma dropWhile_fixed : forall s,
  startsSpace s = false -> dropWhile isSpace s = s.
Proof.
  intros [|c s] H; simpl; [reflexivity|].
  simpl in H. rewrite H. reflexivity.
Qed.

Lemma trimEnd_idem : forall s, trimEnd (trimEnd s) = trimEnd s.
Proof.
  induction s as [|c s IH]; simpl; [reflexivity|].
  destruct (trimEnd s) as [|d r] eqn:Er.
  - destruct (isSpace c) eqn:E; simpl; [reflexivity | rewrite E; reflexivity].
  - change (trimEnd (c :: d :: r)) with
      (match trimEnd (d :: r) with
       | [] => if isSpace c then [] else [c]
       | x :: y => c :: x :: y
       end).
    rewrite IH. reflexivity.
Qed.

Lemma trim_idem : forall s, trim (trim s) = trim s.
Proof.
  intros s. unfold trim.
  rewrite (dropWhile_fixed (trimEnd (dropWhile isSpace s))).
  - apply trimEnd_idem.
  - apply trimEnd_startsSpace, dropWhile_startsSpace.
Qed.

Lemma Forall_dropWhile (P : N -> Prop) (p : N -> bool) : forall s,
  Forall P s -> Forall P (dropWhile p s).
Proof.
  induction 1 as [|c s Hc Hs IH]; simpl; [constructor|].
  destruct (p c); [exact IH | constructor; assumption].
Qed.

Lemma Forall_trimEnd (P : N -> Prop) : forall s,
  Forall P s -> Forall P (trimEnd s).
Proof.
  induction 1 as [|c s Hc Hs IH]; simpl; [constructor|].
  destruct (trimEnd s).
  - destruct (isSpace c); constructor; [assumption | constructor].
  - constructor; assumption.
Qed.

Lemma Forall_spaces (P : N -> Prop) : P 32 -> forall s k,
  Forall P s -> Forall P (replaceFrom matchSpaces k s).
Proof.
  intros H32. induction s as [|c s IH]; intros k H; simpl; [constructor|].
  inversion H as [|? ? Hc Hs]; subst.
  destruct k; [|apply IH; exact Hs].
  destruct (isSpace c); simpl.
  - constructor; [exact H32 | apply IH; exact Hs].
  - constructor; [exact Hc | apply IH; exact Hs].
Qed.

Lemma markers_removed : forall s,
  Forall (fun c => isMarker c = false) (replaceAll matchMarker s).
Proof.
  unfold replaceAll. induction s as [|c s IH]; simpl; [constructor|].
  destruct (isMarker c) eqn:E; simpl; [exact IH | constructor; assumption].
Qed.

(** What every sanitised text looks like. *)
Lemma sanitize_shape : forall s,
  Forall (fun c => isMarker c = false) (sanitize s)
  /\ collapsedAfter false (sanitize s)
  /\ trim (sanitize s) = sanitize s.
Proof.
  intros s. unfold sanitize. split; [|split].
  - unfold trim. apply Forall_trimEnd, Forall_dropWhile.
    apply Forall_spaces; [reflexivity|]. apply markers_removed.
  - unfold trim. apply collapsed_trimEnd.
    apply (collapsed_dropWhile _ false).
    eapply spaces_collapsed; [apply le_n | discriminate].
  - apply trim_idem.
Qed.

(** A sanitised text of white space only is empty. *)
Lemma trim_blank : forall s,
  Forall (fun c => isSpace c = true) (trim s) -> trim s = [].
Proof.
  intros s H. unfold trim in *.
  pose proof (trimEnd_startsSpace _ (dropWhile_startsSpace s)) as Hs.
  destruct (trimEnd (dropWhile isSpace s)) as [|c r]; [reflexivity|].
  inversion H; subst. simpl in Hs. congruence.
Qed.

Lemma plain_untouched (m : matcher) (d : N) :
  d = backtick \/ d = dollar \/ d = lbracket ->
  (forall s rep n, m s = Some (rep, n) ->
     exists c s', s = c :: s' /\ (c =? d) = true) ->
  forall s, plain s -> replaceAll m s = s.
Proof.
  intros Hd Hm s Hs.
  apply (replaceAll_untriggered m (fun c => c =? d) Hm).
  intros c Hc. apply N.eqb_neq.
  unfold plain in Hs. rewrite Forall_forall in Hs.
  destruct (Hs c Hc) as (H1 & H2 & H3).
  destruct Hd as [-> | [-> | ->]]; assumption.
Qed.

(** On a text without backtick, dollar sign and opening bracket the first
    five replacements of [sanitize] find nothing. *)
Lemma plain_skips_markup : forall s, plain s ->
  replaceAll matchLink
    (replaceAll matchInlineMath
      (replaceAll matchBlockMath
        (replaceAll matchInlineCode
          (replaceAll matchFence s)))) = s.
Proof.
  intros s Hs.
  rewrite (plain_untouched matchFence backtick (or_introl eq_refl)
             matchFence_head s Hs).
  rewrite (plain_untouched matchInlineCode backtick (or_introl eq_refl)
             (matchDelimited_head backtick _) s Hs).
  rewrite (plain_untouched matchBlockMath dollar
             (or_intror (or_introl eq_refl)) matchBlockMath_head s Hs).
  rewrite (plain_untouched matchInlineMath dollar
             (or_intror (or_introl eq_refl))
             (matchDelimited_head dollar _) s Hs).
  exact (plain_untouched matchLink lbracket (or_intror (or_intror eq_refl))
           matchLink_head s Hs).
Qed.

Lemma Forall_markers (P : N -> Prop) : forall s,
  Forall P s -> Forall P (replaceAll matchMarker s).
Proof.
  unfold replaceAll. induction 1 as [|c s Hc Hs IH]; simpl; [constructor|].
  destruct (isMarker c); simpl; [exact IH | constructor; assumption].
Qed.

Lemma sanitize_keeps_plain : forall s, plain s -> plain (sanitize s).
Proof.
  intros s Hs. unfold sanitize. rewrite (plain_skips_markup s Hs).
  unfold trim, plain. apply Forall_trimEnd, Forall_dropWhile.
  apply Forall_spaces.
  - repeat split; discriminate.
  - apply Forall_markers. exact Hs.
Qed.

Lemma sanitize_fixed : forall t,
  plain t ->
  Forall (fun c => isMarker c = false) t ->
  collapsedAfter false t ->
  trim t = t ->
  sanitize t = t.
Proof.
  intros t Hplain Hmark Hcoll Htrim. unfold sanitize.
  rewrite (plain_skips_markup t Hplain).
  rewrite (replaceAll_untriggered matchMarker isMarker matchMarker_head t).
  - rewrite (collapsed_fixed t false Hcoll). exact Htrim.
  - intros c Hc. rewrite Forall_forall in Hmark. apply Hmark. exact Hc.
Qed.

(** C7 (as amended): [sanitize] is a total function of its argument, and
    sanitising again changes nothing whenever the sanitised text carries no
    backtick, dollar sign or opening square bracket. *)
Theorem sanitize_idempotent_on_plain_output : forall s,
  plain (sanitize s) -> sanitize (sanitize s) = sanitize s.
Proof.
  intros s Hplain.
  destruct (sanitize_shape s) as (Hmark & Hcoll & Htrim).
  apply sanitize_fixed; assumption.
Qed.

(** A text that is plain to begin with is sanitised to a fixed point. *)
Corollary sanitize_idempotent_on_plain_input : forall s,
  plain s -> sanitize (sanitize s) = sanitize s.
Proof.
  intros s Hs.
  destruct (sanitize_shape s) as (Hmark & Hcoll & Htrim).
  apply sanitize_fixed; auto using sanitize_keeps_plain.
Qed.

(** ** Voice selection *)

Lemma orElse_some {A : Type} (a b : option A) (x : A) :
  orElse a b = Some x -> a = Some x \/ b = Some x.
Proof. destruct a; simpl; auto. Qed.

Lemma hd_error_in {A : Type} (l : list A) (x : A) :
  hd_error l = Some x -> In x l.
Proof. destruct l; simpl; [discriminate|]. intros [= ->]. left; reflexivity. Qed.

Lemma pickVoice_in : forall gender vs v,
  pickVoice gender vs = Some v -> In v vs.
Proof.
  intros gender vs v H. unfold pickVoice in H.
  destruct vs as [|v0 vs']; [discriminate|].
  destruct (eqb gender (js "female"));
    repeat (apply orElse_some in H; destruct H as [H|H]);
    try (apply find_some in H; destruct H as [H _]; exact H);
    apply hd_error_in; exact H.
Qed.

Lemma orElse_none_r {A : Type} (a b : option A) :
  orElse a b = None -> b = None.
Proof. destruct a; simpl; [discriminate | auto]. Qed.

Lemma pickVoice_none : forall gender vs,
  pickVoice gender vs = None <-> vs = [].
Proof.
  intros gender vs. split.
  - unfold pickVoice. destruct vs as [|v0 vs']; [reflexivity|].
    intros H. destruct (eqb gender (js "female"));
      repeat apply orElse_none_r in H; discriminate.
  - intros ->. reflexivity.
Qed.

(** C3 (as amended): when no voice of the catalogue has a language tag that
    starts with the primary subtag of the normalised tag, [setVoice] leaves
    the selected voice absent, whether or not the catalogue is empty; the
    selected voice is absent exactly in that case. *)
Theorem setVoice_absent_iff_no_match : forall gender language code c,
  normalizeLang language = Some code ->
  exists c',
    setVoice gender language c = Some c'
    /\ voices c' = voices c
    /\ (selectedVoice c' = None <->
        forall v, In v (voices c) ->
          startsWith (lang v) (beforeHyphen code) = false).
Proof.
  intros gender language code c Hn. unfold setVoice. rewrite Hn.
  eexists. split; [reflexivity|]. split; [reflexivity|]. simpl.
  rewrite pickVoice_none. split.
  - intros Hf v Hv.
    destruct (startsWith (lang v) (beforeHyphen code)) eqn:E; [|reflexivity].
    assert (Hin : In v (filter (speaksLang code) (voices c)))
      by (apply filter_In; split; assumption).
    rewrite Hf in Hin. destruct Hin.
  - intros Hall.
    destruct (filter (speaksLang code) (voices c)) as [|v rest] eqn:E;
      [reflexivity|].
    assert (Hin : In v (filter (speaksLang code) (voices c)))
      by (rewrite E; left; reflexivity).
    apply filter_In in Hin. destruct Hin as [Hv Hs].
    unfold speaksLang in Hs. rewrite (Hall v Hv) in Hs. discriminate.
Qed.

(** C4: when some voice of the catalogue has a language tag that starts
    with the primary subtag of the normalised tag, [setVoice] selects a voice
    of the catalogue whose language tag starts with that subtag. *)
Theorem setVoice_selects_matching_language :
  forall gender language code c,
  normalizeLang language = Some code ->
  (exists v, In v (voices c)
             /\ startsWith (lang v) (beforeHyphen code) = true) ->
  exists c' best,
    setVoice gender language c = Some c'
    /\ selectedVoice c' = Some best
    /\ In best (voices c)
    /\ startsWith (lang best) (beforeHyphen code) = true.
Proof.
  intros gender language code c Hn (v & Hv & Hs).
  unfold setVoice. rewrite Hn.
  destruct (pickVoice gender (filter (speaksLang code) (voices c)))
    as [best|] eqn:E.
  - apply pickVoice_in in E. apply filter_In in E. destruct E as [Hb Hl].
    eexists. exists best. split; [reflexivity|]. simpl.
    split; [reflexivity|]. split; assumption.
  - apply pickVoice_none in E.
    assert (Hin : In v (filter (speaksLang code) (voices c)))
      by (apply filter_In; split; assumption).
    rewrite E in Hin. destruct Hin.
Qed.

(** C6: on a catalogue holding only the voice Google francais (fr-FR),
    [setVoice('male', 'fr')] selects that voice by the third rule of the
    male branch (its name holds no male and no female keyword) and sets
    the default pitch to 0.85. *)
Theorem setVoice_male_fr_google_francais : forall c,
  voices c = [googleFrancais] ->
  exists c',
    setVoice (js "male") (js "fr") c = Some c'
    /\ selectedVoice c' = Some googleFrancais
    /\ defaultPitch c' = Some 0.85%Q
    /\ currentLang c' = js "fr-FR"
    /\ hasKeyword maleKeywords googleFrancais = false
    /\ hasKeyword femaleKeywords googleFrancais = false
    /\ find (fun v => negb (hasKeyword femaleKeywords v)) [googleFrancais]
       = Some googleFrancais.
Proof.
  intros c Hc. unfold setVoice.
  change (normalizeLang (js "fr")) with (Some (js "fr-FR")).
  rewrite Hc. eexists. split; [reflexivity|].
  repeat split; vm_compute; reflexivity.
Qed.

(** ** Traces and states of the actions *)

Lemma traceOf_bind {A B : Type} (m : Act A) (k : A -> Act B) (w : World) :
  traceOf (bind m k w) = traceOf (m w) ++ traceOf (k (fst (fst (m w))) (worldOf (m w))).
Proof. reflexivity. Qed.

Lemma worldOf_bind {A B : Type} (m : Act A) (k : A -> Act B) (w : World) :
  worldOf (bind m k w) = worldOf (k (fst (fst (m w))) (worldOf (m w))).
Proof. reflexivity. Qed.

Lemma withSynth_same : forall w,
  withSynth (synthQueue w) (synthStarted w) w = w.
Proof. intros []. reflexivity. Qed.

Lemma speakSentences_spec : forall c tag opts count sentences index w,
  traceOf (speakSentences c tag opts count index sentences w)
  = map SynthSpeak (utterancesOf c tag opts count index sentences)
  /\ worldOf (speakSentences c tag opts count index sentences w)
     = withSynth
         (synthQueue w ++ utterancesOf c tag opts count index sentences)
         (synthStarted w) w.
Proof.
  intros c tag opts count.
  induction sentences as [|sentence rest IH]; intros index w.
  - simpl. rewrite app_nil_r, withSynth_same. split; reflexivity.
  - cbn [speakSentences utterancesOf].
    rewrite traceOf_bind, worldOf_bind.
    destruct (trim sentence) as [|x y] eqn:E.
    + destruct (IH (S index) w) as [Ht Hw]. split; assumption.
    + set (u := utteranceFor c tag opts count index sentence).
      destruct (IH (S index) (worldOf (synthesis_speak u w))) as [Ht Hw].
      split.
      * rewrite Ht. reflexivity.
      * rewrite Hw. destruct w. cbn. rewrite <- app_assoc. reflexivity.
Qed.

Lemma speakLocal_spec : forall tag base readable opts w,
  traceOf (speakLocal tag base readable opts w)
  = map SynthSpeak (localUtterances tag base readable opts (ctl w))
  /\ worldOf (speakLocal tag base readable opts w)
     = withSynth
         (synthQueue w ++ localUtterances tag base readable opts (ctl w))
         (synthStarted w) (withCtl (adoptVoice base) w).
Proof.
  intros tag base readable opts w.
  unfold speakLocal, localUtterances, adoptVoice.
  destruct w as [c q st a h ra r u n].
  unfold bind, get, traceOf, worldOf. cbn [fst snd ctl app].
  destruct (selectedVoice c) as [v|] eqn:Ev;
    [|destruct (voices c) as [|v0 vs] eqn:Evs];
    cbn [ret update fst snd app ctl withCtl];
    match goal with |- context [speakSentences ?c ?t ?o ?n ?i ?s ?w] =>
      destruct (speakSentences_spec c t o n s i w) as [Ht Hw];
      unfold traceOf, worldOf in Ht, Hw; rewrite Ht, Hw
    end;
    unfold withCtl, withSynth;
    cbn [ctl synthQueue synthStarted audio recHooks recActive remote unlocks
         nextCall];
    rewrite ?Ev, ?Evs; split; reflexivity.
Qed.

Lemma speakRemote_spec : forall tag base readable opts w,
  let started := withCtl (setGoogleSpeaking true) w in
  let failed := withCtl (setGoogleSpeaking false) started in
  if encodable readable then
    traceOf (speakRemote tag base readable opts w)
    = invoked (o_onStart opts) []
      ++ [EnterPlayGoogleTTS readable base; Fetch readable base]
    /\ worldOf (speakRemote tag base readable opts w)
       = withRemote
           ((nextCall w, mkRemote readable base tag opts Fetching) :: remote w)
           (S (nextCall w)) started
  else
    traceOf (speakRemote tag base readable opts w)
    = invoked (o_onStart opts) [] ++ [EnterPlayGoogleTTS readable base]
    /\ worldOf (speakRemote tag base readable opts w)
       = withRemote
           ((nextCall w, mkRemote readable base tag opts Thrown) :: remote w)
           (S (nextCall w)) failed.
Proof.
  intros tag base readable opts w. cbv zeta.
  unfold speakRemote, playGoogleTTS.
  destruct (encodable readable);
    destruct (o_onStart opts); split; reflexivity.
Qed.

Lemma speak_spec : forall text opts w,
  let w1 := worldOf (stopSpeaking w) in
  let tag := effectiveLang opts (ctl w) in
  let base := beforeHyphen tag in
  let rest :=
    (if needsFallback base (ctl w)
     then speakRemote tag base (sanitize text) opts
     else speakLocal tag base (sanitize text) opts) w1 in
  traceOf (speak text opts w)
  = [SynthCancel; AudioPause; AudioSeek 0] ++ traceOf rest
  /\ worldOf (speak text opts w) = worldOf rest.
Proof. intros text opts w. split; reflexivity. Qed.

(** *** Which path a call of [speak] takes *)

Lemma spoken_app : forall t1 t2, spoken (t1 ++ t2) = spoken t1 ++ spoken t2.
Proof. intros. unfold spoken. apply flat_map_app. Qed.

Lemma spoken_synth : forall us, spoken (map SynthSpeak us) = us.
Proof.
  induction us as [|u us IH]; simpl; [reflexivity|]. f_equal. exact IH.
Qed.


Lemma local_not_remote : forall us, remoteAttempted (map SynthSpeak us) = false.
Proof.
  induction us as [|u us IH]; simpl; [reflexivity | exact IH].
Qed.

Lemma eqb_eq : forall a b, eqb a b = true <-> a = b.
Proof.
  intros a b. unfold eqb.
  destruct (list_eq_dec N.eq_dec a b); split; congruence.
Qed.

Lemma needsFallback_true : forall base c,
  needsFallback base c = true <->
  base = js "ta"
  \/ (forall v, In v (voices c) -> startsWith (lang v) base = false).
Proof.
  intros base c. unfold needsFallback.
  rewrite orb_true_iff, eqb_eq, negb_true_iff.
  split; (intros [H|H]; [left; exact H | right]).
  - intros v Hv.
    destruct (startsWith (lang v) base) eqn:E; [|reflexivity].
    assert (existsb (fun v => startsWith (lang v) base) (voices c) = true)
      by (apply existsb_exists; exists v; split; assumption).
    congruence.
  - destruct (existsb (fun v => startsWith (lang v) base) (voices c)) eqn:E;
      [|reflexivity].
    apply existsb_exists in E. destruct E as (v & Hv & Hs).
    rewrite (H v Hv) in Hs. discriminate.
Qed.

Lemma speak_attempts_remote : forall text opts w,
  remoteAttempted (traceOf (speak text opts w))
  = needsFallback (beforeHyphen (effectiveLang opts (ctl w))) (ctl w).
Proof.
  intros text opts w.
  destruct (speak_spec text opts w) as [Ht _]. rewrite Ht. clear Ht.
  unfold remoteAttempted. rewrite existsb_app. cbn [existsb isRemoteCall orb].
  destruct (needsFallback _ (ctl w)).
  - match goal with |- context [speakRemote ?t ?b ?r ?o ?x] =>
      pose proof (speakRemote_spec t b r o x) as H end.
    cbv zeta in H. destruct (encodable (sanitize text));
      destruct H as [H _]; rewrite H, existsb_app;
      apply orb_true_iff; right; reflexivity.
  - match goal with |- context [speakLocal ?t ?b ?r ?o ?x] =>
      destruct (speakLocal_spec t b r o x) as [H _] end.
    rewrite H. apply local_not_remote.
Qed.

(** C1: [speak(text, options)] attempts the remote path exactly when the
    primary subtag of the effective language is ta or no voice of the
    catalogue has a language tag starting with that subtag. The effective
    language is [options.lang] when it is supplied (a non-empty string) and
    the current language of the controller otherwise; with
    [options.lang = 'ta'] the remote path is attempted whatever the
    catalogue holds. *)
Theorem speak_remote_iff : forall text opts w,
  (remoteAttempted (traceOf (speak text opts w)) = true <->
   beforeHyphen (effectiveLang opts (ctl w)) = js "ta"
   \/ (forall v, In v (voices (ctl w)) ->
         startsWith (lang v)
           (beforeHyphen (effectiveLang opts (ctl w))) = false))
  /\ (forall tag, o_lang opts = Some tag -> tag <> [] ->
        effectiveLang opts (ctl w) = tag)
  /\ (o_lang opts = None -> effectiveLang opts (ctl w) = currentLang (ctl w))
  /\ (o_lang opts = Some (js "ta") ->
        remoteAttempted (traceOf (speak text opts w)) = true).
Proof.
  intros text opts w. rewrite speak_attempts_remote.
  split; [apply needsFallback_true|].
  split; [|split].
  - intros tag Ho Hne. unfold effectiveLang. rewrite Ho.
    destruct tag; [contradiction | reflexivity].
  - intros Ho. unfold effectiveLang. rewrite Ho. reflexivity.
  - intros Ho. unfold effectiveLang. rewrite Ho. reflexivity.
Qed.

(** C10: when the sanitised text is empty or holds white space only and
    the native path is taken, [speak] returns having cancelled prior speech
    and nothing else: no utterance is submitted, no callback is invoked or
    attached, and no remote call is left open to invoke one later. A
    suspended call that falls through to the native path with such a text
    submits and invokes nothing either. *)
Theorem speak_blank_text_is_silent : forall text opts w,
  Forall (fun c => isSpace c = true) (sanitize text) ->
  needsFallback (beforeHyphen (effectiveLang opts (ctl w))) (ctl w) = false ->
  sanitize text = []
  /\ traceOf (speak text opts w) = [SynthCancel; AudioPause; AudioSeek 0]
  /\ synthQueue (worldOf (speak text opts w)) = []
  /\ remote (worldOf (speak text opts w)) = remote w
  /\ (forall r w', r_text r = sanitize text ->
        traceOf (resumeFailed r w') = []
        /\ synthQueue (worldOf (resumeFailed r w')) = synthQueue w').
Proof.
  intros text opts w Hblank Hlocal.
  assert (Hempty : sanitize text = []).
  { destruct (sanitize_shape text) as (_ & _ & Htrim).
    rewrite <- Htrim. apply trim_blank. rewrite Htrim. exact Hblank. }
  split; [exact Hempty|].
  destruct (speak_spec text opts w) as [Ht Hw]. rewrite Ht, Hw, Hlocal.
  clear Ht Hw. rewrite Hempty.
  match goal with |- context [speakLocal ?t ?b ?r ?o ?x] =>
    destruct (speakLocal_spec t b r o x) as [Ht Hw] end.
  rewrite Ht, Hw. split; [reflexivity|]. split; [reflexivity|].
  split; [reflexivity|].
  intros r w' Hr. unfold resumeFailed. rewrite Hr.
  destruct (speakLocal_spec (r_lang r) (r_base r) [] (r_opts r) w')
    as [Ht' Hw'].
  rewrite Ht', Hw'. split; [reflexivity|].
  cbn. apply app_nil_r.
Qed.

(** ** The local-speaking flag *)

Lemma keeps_bind {A B : Type} (m : Act A) (k : A -> Act B) :
  keepsFlag m -> (forall x, keepsFlag (k x)) -> keepsFlag (bind m k).
Proof.
  intros Hm Hk w. rewrite worldOf_bind, Hk. apply Hm.
Qed.

Lemma keeps_ret {A : Type} (x : A) : keepsFlag (ret x).
Proof. intros w. reflexivity. Qed.

Lemma keeps_emit (e : Event) : keepsFlag (emit e).
Proof. intros w. reflexivity. Qed.

Lemma keeps_get : keepsFlag get.
Proof. intros w. reflexivity. Qed.

Lemma keeps_invoke cb args : keepsFlag (invoke cb args).
Proof. intros w. destruct cb; reflexivity. Qed.

Lemma keeps_update (f : World -> World) :
  (forall w, isSpeakingFlag (ctl (f w)) = isSpeakingFlag (ctl w)) ->
  keepsFlag (update f).
Proof. intros H w. apply H. Qed.

Lemma adoptVoice_flag : forall base c,
  isSpeakingFlag (adoptVoice base c) = isSpeakingFlag c.
Proof.
  intros base c. unfold adoptVoice.
  destruct (selectedVoice c); [reflexivity|].
  destruct (voices c); reflexivity.
Qed.

Lemma keeps_speakLocal tag base readable opts :
  keepsFlag (speakLocal tag base readable opts).
Proof.
  intros w. destruct (speakLocal_spec tag base readable opts w) as [_ H].
  rewrite H. cbn. apply adoptVoice_flag.
Qed.

Ltac keeps_step :=
  match goal with
  | |- keepsFlag (speakLocal _ _ _ _) => apply keeps_speakLocal
  | |- keepsFlag (ret _) => apply keeps_ret
  | |- keepsFlag (emit _) => apply keeps_emit
  | |- keepsFlag get => apply keeps_get
  | |- keepsFlag (invoke _ _) => apply keeps_invoke
  | |- keepsFlag (update _) => apply keeps_update; intros ?; reflexivity
  | |- keepsFlag (bind _ _) => apply keeps_bind; [|intros ?]
  | |- keepsFlag (if ?b then _ else _) => destruct b
  | |- keepsFlag (match ?x with _ => _ end) => destruct x
  end.

Ltac keeps := repeat keeps_step.

Lemma keeps_stopSpeaking : keepsFlag stopSpeaking.
Proof. intros w. reflexivity. Qed.

Lemma keeps_speak text opts : keepsFlag (speak text opts).
Proof.
  unfold speak, speakRemote, playGoogleTTS.
  apply keeps_bind; [apply keeps_stopSpeaking | intros ?]. keeps.
Qed.

Lemma keeps_settle call ok : keepsFlag (settle call ok).
Proof. unfold settle, resumeDone, resumeFailed. keeps. Qed.

Lemma setVoice_flag : forall gender language c c',
  setVoice gender language c = Some c' ->
  isSpeakingFlag c' = isSpeakingFlag c.
Proof.
  intros gender language c c' H. unfold setVoice in H.
  destruct (normalizeLang language); [|discriminate].
  injection H as <-. reflexivity.
Qed.

Lemma loadVoices_flag : forall vs c c',
  loadVoices vs c = Some c' -> isSpeakingFlag c' = isSpeakingFlag c.
Proof.
  intros vs c c' H. unfold loadVoices in H. destruct vs as [|v vs].
  - injection H as <-. reflexivity.
  - apply setVoice_flag in H. exact H.
Qed.

Lemma liftCtl_flag (f : Controller -> option Controller) :
  (forall c c', f c = Some c' -> isSpeakingFlag c' = isSpeakingFlag c) ->
  forall w w' tr, liftCtl f w = Some (w', tr) ->
  isSpeakingFlag (ctl w') = isSpeakingFlag (ctl w).
Proof.
  intros Hf w w' tr H. unfold liftCtl in H.
  destruct (f (ctl w)) as [c|] eqn:E; [|discriminate].
  injection H as <- <-. cbn. apply Hf. exact E.
Qed.

Lemma done_flag (a : Act unit) :
  keepsFlag a ->
  forall w w' tr, done a w = Some (w', tr) ->
  isSpeakingFlag (ctl w') = isSpeakingFlag (ctl w).
Proof.
  intros Ha w w' tr H. unfold done in H. injection H as <- <-. apply Ha.
Qed.

(** No operation writes to [isSpeakingFlag]. *)
Ltac split_exec H :=
  repeat match type of H with
         | match ?x with _ => _ end = Some _ =>
             destruct x eqn:?; try discriminate H
         | (if ?b then _ else _) = Some _ =>
             destruct b eqn:?; try discriminate H
         end.

Ltac keeps_op :=
  repeat first
    [ keeps_step
    | match goal with
      | |- keepsFlag (settle _ _) => apply keeps_settle
      | |- keepsFlag (resumeFailed _) => unfold resumeFailed
      | |- keepsFlag (speak _ _) => apply keeps_speak
      | |- keepsFlag stopSpeaking => apply keeps_stopSpeaking
      | |- keepsFlag unlock => unfold unlock
      | |- keepsFlag (startListening _ _ _) => unfold startListening
      | |- keepsFlag stopListening => unfold stopListening
      | |- keepsFlag (audio_load _) => unfold audio_load
      | |- keepsFlag audio_play => unfold audio_play
      end ].

(** No operation writes to [isSpeakingFlag]. *)
Lemma exec_keeps_flag : forall op w w' tr,
  exec op w = Some (w', tr) ->
  isSpeakingFlag (ctl w') = isSpeakingFlag (ctl w).
Proof.
  intros op w w' tr H.
  destruct op; cbn [exec] in H.
  1, 2: eapply liftCtl_flag; [|exact H];
        eauto using setVoice_flag, loadVoices_flag.
  all: split_exec H.
  all: eapply done_flag; [|exact H].
  all: keeps_op.
Qed.

Lemma newController_flag : forall hasRecognition vs w,
  newController hasRecognition vs = Some w -> isSpeakingFlag (ctl w) = false.
Proof.
  intros hasRecognition vs w H. unfold newController in H.
  destruct hasRecognition.
  - destruct (loadVoices vs _) as [c|] eqn:E; [|discriminate].
    injection H as <-. apply loadVoices_flag in E. exact E.
  - injection H as <-. reflexivity.
Qed.

Lemma reachable_flag : forall w,
  reachable w -> isSpeakingFlag (ctl w) = false.
Proof.
  induction 1 as [r vs w H | w op w' tr _ IH H].
  - eapply newController_flag; eassumption.
  - rewrite (exec_keeps_flag _ _ _ _ H). exact IH.
Qed.

Lemma execAll_reachable : forall ops w w' tr,
  reachable w -> execAll ops w = Some (w', tr) -> reachable w'.
Proof.
  induction ops as [|op ops IH]; intros w w' tr Hw H; simpl in H.
  - injection H as <- <-. exact Hw.
  - destruct (exec op w) as [[w1 t1]|] eqn:E1; [|discriminate].
    destruct (execAll ops w1) as [[w2 t2]|] eqn:E2; [|discriminate].
    injection H as <- <-.
    eapply IH; [|exact E2]. eapply reach_step; eassumption.
Qed.

(** C9: [isSpeakingFlag] is false in a new controller and no operation
    writes to it, so it is false in every reachable state; the controller's
    own fields are the same whether or not the synthesiser is speaking. *)
Theorem isSpeakingFlag_never_assigned :
  (forall hasRecognition vs w,
     newController hasRecognition vs = Some w ->
     isSpeakingFlag (ctl w) = false)
  /\ (forall op w w' tr,
        exec op w = Some (w', tr) ->
        isSpeakingFlag (ctl w') = isSpeakingFlag (ctl w))
  /\ (forall w, reachable w -> isSpeakingFlag (ctl w) = false)
  /\ (exists w w',
        reachable w /\ reachable w' /\ ctl w = ctl w'
        /\ synthStarted w = true /\ synthQueue w <> []
        /\ synthStarted w' = false /\ synthQueue w' = []).
Proof.
  split; [exact newController_flag|].
  split; [exact exec_keeps_flag|].
  split; [exact reachable_flag|].
  assert (R0 : reachable startWorld)
    by (apply (reach_new true [usEnglish]); reflexivity).
  exists speakingWorld, startWorld.
  split.
  { apply (execAll_reachable
             [CallSpeak (js "Hi.") noOptions; UtteranceStarted]
             startWorld speakingWorld
             [SynthCancel; AudioPause; AudioSeek 0; SynthSpeak hiUtterance]
             R0).
    vm_compute. reflexivity. }
  split; [exact R0|].
  repeat split; try reflexivity. discriminate.
Qed.



(** C8: [stopSpeaking] always succeeds; afterwards the synthesiser's queue
    is empty, the audio element is paused at its start and the
    remote-speaking flag is false; the local-speaking flag is left as it
    was, false in every reachable state; when nothing is being spoken
    the call changes nothing but the position of the paused audio element,
    which it sets to the start. *)
Theorem stopSpeaking_halts_both : forall w,
  exec CallStopSpeaking w
  = Some (worldOf (stopSpeaking w), [SynthCancel; AudioPause; AudioSeek 0])
  /\ synthQueue (worldOf (stopSpeaking w)) = []
  /\ synthStarted (worldOf (stopSpeaking w)) = false
  /\ paused (audio (worldOf (stopSpeaking w))) = true
  /\ currentTime (audio (worldOf (stopSpeaking w))) = 0
  /\ isGoogleSpeaking (ctl (worldOf (stopSpeaking w))) = false
  /\ isSpeakingFlag (ctl (worldOf (stopSpeaking w))) = isSpeakingFlag (ctl w)
  /\ (reachable w -> isSpeakingFlag (ctl (worldOf (stopSpeaking w))) = false)
  /\ (quiet w -> worldOf (stopSpeaking w) = rewound w)
  /\ (quiet w -> currentTime (audio w) = 0 -> worldOf (stopSpeaking w) = w).
Proof.
  intros w. repeat (split; [reflexivity|]).
  split; [|split].
  - intros Hw. exact (reachable_flag w Hw).
  - intros (Hq & Hs & Hp & Hg).
    destruct w as [c q st a h ra r u n]. destruct c, a. cbn in *.
    subst. reflexivity.
  - intros (Hq & Hs & Hp & Hg) Ht.
    destruct w as [c q st a h ra r u n]. destruct c, a. cbn in *.
    subst. reflexivity.
Qed.

(** C5 (as amended): [stopListening], called while recognition is available
    and the session is listening, asks the recogniser to stop and sets the
    listening flag to false before it returns; the recogniser goes on
    capturing until its end notification, which finds the flag false, leaves
    it so and calls [onEnd]. *)
Theorem stopListening_clears_flag_at_once : forall w,
  recognition (ctl w) = true ->
  isListening (ctl w) = true ->
  traceOf (stopListening w) = [RecStop]
  /\ isListening (ctl (worldOf (stopListening w))) = false
  /\ recActive (worldOf (stopListening w)) = recActive w
  /\ (forall w2 tr,
        exec RecEnded (worldOf (stopListening w)) = Some (w2, tr) ->
        isListening (ctl w2) = false /\ recActive w2 = false
        /\ exists h, recHooks w = Some h /\ tr = invoked (h_onEnd h) []).
Proof.
  intros w Hr Hl. unfold stopListening, bind, get.
  cbn [fst snd worldOf traceOf]. rewrite Hr, Hl.
  repeat (split; [reflexivity|]).
  intros w2 tr H. cbn in H.
  destruct (recActive w); [|discriminate].
  destruct (recHooks w) as [h|]; [|discriminate].
  injection H as <- <-.
  destruct (h_onEnd h) as [f|] eqn:E;
    (split; [reflexivity|]; split; [reflexivity|];
     exists h; split; [reflexivity|]; rewrite E; reflexivity).
Qed.

(** ** More on the sanitiser *)

Lemma collapsed_no_pair : forall pre b x y post,
  collapsedAfter b (pre ++ x :: y :: post) ->
  isSpace x = true -> isSpace y = true -> False.
Proof.
  induction pre as [|c pre IH]; intros b x y post H Hx Hy.
  - simpl in H. rewrite Hx, Hy in H.
    destruct H as (_ & _ & _ & Hf & _). discriminate.
  - simpl in H. destruct (isSpace c).
    + destruct H as (_ & _ & H). exact (IH _ _ _ _ H Hx Hy).
    + exact (IH _ _ _ _ H Hx Hy).
Qed.

Lemma collapsed_space_is_32 : forall s b c,
  collapsedAfter b s -> In c s -> isSpace c = true -> c = 32.
Proof.
  induction s as [|d s IH]; intros b c H Hin Hc; [destruct Hin|].
  simpl in H. destruct Hin as [<- | Hin].
  - rewrite Hc in H. destruct H as [H _]. exact H.
  - destruct (isSpace d).
    + destruct H as (_ & _ & H). exact (IH _ _ H Hin Hc).
    + exact (IH _ _ H Hin Hc).
Qed.

Lemma trimEnd_last : forall s pre c,
  trimEnd s = pre ++ [c] -> isSpace c = false.
Proof.
  induction s as [|d s IH]; intros pre c H; simpl in H.
  - destruct pre; discriminate.
  - destruct (trimEnd s) as [|e r] eqn:E.
    + destruct (isSpace d) eqn:Ed.
      * destruct pre; discriminate.
      * destruct pre as [|p pre]; [injection H as <-; exact Ed|].
        destruct pre; discriminate.
    + destruct pre as [|p pre]; [discriminate|].
      injection H as _ H. exact (IH pre c H).
Qed.

(** X1: a sanitised text holds no emphasis marker, no white space but
    single spaces between other units, and none at either end. *)
Theorem sanitize_output_clean : forall text,
  (forall c, In c (sanitize text) ->
     isMarker c = false /\ (isSpace c = true -> c = 32))
  /\ (forall pre x y post, sanitize text = pre ++ x :: y :: post ->
        isSpace x = false \/ isSpace y = false)
  /\ (forall c rest, sanitize text = c :: rest -> isSpace c = false)
  /\ (forall pre c, sanitize text = pre ++ [c] -> isSpace c = false).
Proof.
  intros text. destruct (sanitize_shape text) as (Hmark & Hcoll & Htrim).
  split; [|split; [|split]].
  - intros c Hc. split.
    + rewrite Forall_forall in Hmark. exact (Hmark c Hc).
    + intros Hs. exact (collapsed_space_is_32 _ _ _ Hcoll Hc Hs).
  - intros pre x y post E. rewrite E in Hcoll.
    destruct (isSpace x) eqn:Hx; [|left; reflexivity].
    destruct (isSpace y) eqn:Hy; [|right; reflexivity].
    destruct (collapsed_no_pair _ _ _ _ _ Hcoll Hx Hy).
  - intros c rest E.
    pose proof (trimEnd_startsSpace _
                  (dropWhile_startsSpace (sanitize text))) as H.
    fold (trim (sanitize text)) in H. rewrite Htrim, E in H. exact H.
  - intros pre c E. rewrite <- Htrim in E. unfold trim in E.
    exact (trimEnd_last _ _ _ E).
Qed.

Lemma solid_dropWhile : forall s,
  filter solid (dropWhile isSpace s) = filter solid s.
Proof.
  induction s as [|c s IH]; simpl; [reflexivity|].
  destruct (isSpace c) eqn:E; [|reflexivity].
  unfold solid at 2. rewrite E. simpl. exact IH.
Qed.

Lemma solid_trimEnd : forall s, filter solid (trimEnd s) = filter solid s.
Proof.
  induction s as [|c s IH]; simpl; [reflexivity|].
  destruct (trimEnd s) as [|d r] eqn:E.
  - cbn [filter] in IH. cbn [filter]. rewrite <- IH.
    destruct (isSpace c) eqn:Ec; [|reflexivity].
    unfold solid. rewrite Ec. reflexivity.
  - change (filter solid (c :: d :: r))
      with (if solid c then c :: filter solid (d :: r)
            else filter solid (d :: r)).
    rewrite IH. reflexivity.
Qed.

Lemma solid_spaces : forall n s,
  (List.length s <= n)%nat ->
  filter solid (replaceAll matchSpaces s) = filter solid s.
Proof.
  induction n as [|n IH]; intros [|c s] Hlen; simpl in Hlen;
    try reflexivity; try lia.
  rewrite replaceAll_spaces_cons.
  destruct (isSpace c) eqn:E.
  - cbn [filter].
    replace (solid 32) with false by reflexivity.
    replace (solid c) with false by (unfold solid; rewrite E; reflexivity).
    rewrite IH by (pose proof (dropWhile_length isSpace s); lia).
    apply solid_dropWhile.
  - cbn [filter]. rewrite IH by lia. reflexivity.
Qed.

Lemma solid_markers : forall s,
  filter solid (replaceAll matchMarker s) = filter solid s.
Proof.
  unfold replaceAll. induction s as [|c s IH]; simpl; [reflexivity|].
  destruct (isMarker c) eqn:E; simpl.
  - unfold solid at 2. rewrite E, andb_false_r. exact IH.
  - rewrite IH. reflexivity.
Qed.

(** X2: on a text without backtick, dollar sign and opening bracket,
    [sanitize] deletes and inserts nothing but white space and emphasis
    markers: the other code units come out as they went in, in order. *)
Theorem sanitize_keeps_words : forall text,
  plain text -> filter solid (sanitize text) = filter solid text.
Proof.
  intros text Hp. unfold sanitize. rewrite (plain_skips_markup text Hp).
  unfold trim. rewrite solid_trimEnd, solid_dropWhile.
  rewrite (solid_spaces _ _ (le_n _)). apply solid_markers.
Qed.

(** The scan copies a prefix on which the matcher cannot start. *)
Lemma replaceAll_prefix (m : matcher) (trigger : N -> bool) :
  (forall s rep n, m s = Some (rep, n) ->
     exists c s', s = c :: s' /\ trigger c = true) ->
  forall pre rest, (forall c, In c pre -> trigger c = false) ->
  replaceAll m (pre ++ rest) = pre ++ replaceAll m rest.
Proof.
  intros Hm. unfold replaceAll.
  induction pre as [|c pre IH]; intros rest Hfree; [reflexivity|].
  cbn [app replaceFrom].
  destruct (m (c :: pre ++ rest)) as [[rep n]|] eqn:E.
  - destruct (Hm _ _ _ E) as (c' & s' & Heq & Ht).
    injection Heq as <- <-.
    rewrite (Hfree c) in Ht by (left; reflexivity). discriminate.
  - f_equal. apply IH. intros d Hd. apply Hfree. right; exact Hd.
Qed.

Lemma startsWith_nil : forall s, startsWith s [] = true.
Proof. intros []; reflexivity. Qed.

Lemma indexOf_fence : forall body rest,
  noBacktick body -> indexOf (body ++ fence ++ rest) fence
                     = Some (List.length body).
Proof.
  induction body as [|c body IH]; intros rest H.
  - cbn. rewrite startsWith_nil. reflexivity.
  - inversion H as [|? ? Hc Hb]; subst.
    cbn [app indexOf List.length].
    replace (startsWith (c :: body ++ fence ++ rest) fence) with false.
    + rewrite (IH rest Hb). reflexivity.
    + unfold fence. cbn [startsWith]. rewrite N.eqb_sym, Hc. reflexivity.
Qed.

Lemma takeWhile_word_fence : forall body rest,
  takeWhile isWord (body ++ fence ++ rest) = takeWhile isWord body.
Proof.
  induction body as [|c body IH]; intros rest; [reflexivity|].
  cbn [app takeWhile]. destruct (isWord c); [f_equal; apply IH | reflexivity].
Qed.

Lemma replaceAll_fenced : forall body rest,
  noBacktick body ->
  replaceAll matchFence (fence ++ body ++ fence ++ rest)
  = codeNotice body ++ replaceAll matchFence rest.
Proof.
  intros body rest Hb. unfold replaceAll.
  change (fence ++ body ++ fence ++ rest)
    with (backtick :: backtick :: backtick :: body ++ fence ++ rest).
  cbn [replaceFrom].
  assert (E : matchFence
                (backtick :: backtick :: backtick :: body ++ fence ++ rest)
              = Some (codeNotice body, (3 + List.length body + 3)%nat)).
  { unfold matchFence.
    replace (startsWith
               (backtick :: backtick :: backtick :: body ++ fence ++ rest)
               fence) with true by (cbn; rewrite startsWith_nil; reflexivity).
    cbn [skipn]. rewrite (indexOf_fence body rest Hb).
    unfold codeNotice. rewrite takeWhile_word_fence. reflexivity. }
  rewrite E. f_equal.
  replace (Nat.pred (3 + List.length body + 3))
    with (2 + (List.length body + 3))%nat by lia.
  cbn [plus replaceFrom].
  rewrite replaceFrom_skipn, skipn_app, skipn_all2 by lia.
  replace (List.length body + 3 - List.length body)%nat with 3%nat by lia.
  reflexivity.
Qed.

Lemma codeNotice_noBacktick : forall body c,
  In c (codeNotice body) -> (c =? backtick) = false.
Proof.
  intros body c H. unfold codeNotice in H.
  apply in_app_or in H. destruct H as [H|H].
  - vm_compute in H. repeat (destruct H as [<-|H]; [reflexivity|]). destruct H.
  - apply in_app_or in H. destruct H as [H|H].
    + assert (Hw : isWord c = true).
      { clear -H. induction body as [|d body IH]; [destruct H|].
        simpl in H. destruct (isWord d) eqn:E; [|destruct H].
        destruct H as [<-|H]; [exact E | exact (IH H)]. }
      destruct (c =? backtick) eqn:E; [|reflexivity].
      apply N.eqb_eq in E. subst c. discriminate.
    + vm_compute in H. repeat (destruct H as [<-|H]; [reflexivity|]).
      destruct H.
Qed.

(** X3: a fenced block is never read out. Text before it without a
    backtick, an opening fence, a body without a backtick and the closing
    fence are sanitised as if the notice that names the block's language
    stood in place of the block. *)
Theorem sanitize_fence_is_notice : forall pre body post,
  noBacktick pre -> noBacktick body ->
  sanitize (pre ++ fence ++ body ++ fence ++ post)
  = sanitize (pre ++ codeNotice body ++ post).
Proof.
  intros pre body post Hpre Hbody.
  assert (Hstep : replaceAll matchFence (pre ++ fence ++ body ++ fence ++ post)
                  = replaceAll matchFence (pre ++ codeNotice body ++ post)).
  { unfold noBacktick in Hpre. rewrite Forall_forall in Hpre.
    rewrite (replaceAll_prefix matchFence (fun c => c =? backtick)
               matchFence_head pre _ Hpre).
    rewrite (replaceAll_fenced body post Hbody).
    rewrite (replaceAll_prefix matchFence (fun c => c =? backtick)
               matchFence_head pre _ Hpre).
    rewrite (replaceAll_prefix matchFence (fun c => c =? backtick)
               matchFence_head (codeNotice body) post
               (codeNotice_noBacktick body)).
    reflexivity. }
  unfold sanitize. rewrite Hstep. reflexivity.
Qed.

(** ** Sentence segmentation *)

Lemma matchFrom_skipn (m : jsstring -> option jsstring) : forall k s,
  matchFrom m k s = matchFrom m O (skipn k s).
Proof.
  induction k as [|k IH]; intros [|c s]; simpl; try reflexivity.
  apply IH.
Qed.

Lemma takeWhile_dropWhile (p : N -> bool) : forall s,
  takeWhile p s ++ dropWhile p s = s.
Proof.
  induction s as [|c s IH]; simpl; [reflexivity|].
  destruct (p c); simpl; [f_equal; exact IH | reflexivity].
Qed.

Lemma dropWhile_idem (p : N -> bool) : forall s,
  dropWhile p (dropWhile p s) = dropWhile p s.
Proof.
  induction s as [|c s IH]; simpl; [reflexivity|].
  destruct (p c) eqn:E; [exact IH | simpl; rewrite E; reflexivity].
Qed.

Lemma takeWhile_all (p : N -> bool) : forall s,
  Forall (fun c => p c = true) (takeWhile p s).
Proof.
  induction s as [|c s IH]; simpl; [constructor|].
  destruct (p c) eqn:E; constructor; assumption.
Qed.

Lemma dropWhile_head (p : N -> bool) : forall s c r,
  dropWhile p s = c :: r -> p c = false.
Proof.
  induction s as [|d s IH]; intros c r H; simpl in H; [discriminate|].
  destruct (p d) eqn:E; [exact (IH _ _ H) | injection H as <- _; exact E].
Qed.

Lemma sentence_split : forall s, firstSentence s ++ afterSentence s = s.
Proof.
  intros s. unfold firstSentence, afterSentence.
  rewrite <- app_assoc, takeWhile_dropWhile. apply takeWhile_dropWhile.
Qed.

Lemma matchAll_sentence_cons : forall c s,
  matchAll matchSentence (c :: s) =
  if notTerminator c
  then firstSentence (c :: s) :: matchAll matchSentence (afterSentence (c :: s))
  else matchAll matchSentence s.
Proof.
  intros c s. unfold matchAll. cbn [matchFrom].
  destruct (notTerminator c) eqn:Hc.
  - assert (Hh : exists h, firstSentence (c :: s) = c :: h).
    { unfold firstSentence. cbn [takeWhile]. rewrite Hc.
      eexists. reflexivity. }
    destruct Hh as [h Hh].
    assert (Hm : matchSentence (c :: s) = Some (firstSentence (c :: s))).
    { unfold matchSentence, firstSentence. cbn [takeWhile]. rewrite Hc.
      reflexivity. }
    rewrite Hm. f_equal. rewrite matchFrom_skipn. f_equal.
    pose proof (sentence_split (c :: s)) as Hs.
    rewrite Hh in *. cbn [app] in Hs. injection Hs as Hs.
    cbn [List.length Nat.pred].
    remember (afterSentence (c :: s)) as r. rewrite <- Hs.
    rewrite skipn_app, skipn_all, Nat.sub_diag. reflexivity.
  - assert (Hm : matchSentence (c :: s) = None).
    { unfold matchSentence. cbn [takeWhile]. rewrite Hc. reflexivity. }
    rewrite Hm. reflexivity.
Qed.

Lemma afterSentence_shorter : forall c s,
  notTerminator c = true ->
  (List.length (afterSentence (c :: s)) <= List.length s)%nat.
Proof.
  intros c s H. unfold afterSentence. cbn [dropWhile]. rewrite H.
  pose proof (dropWhile_length isTerminator (dropWhile notTerminator s)).
  pose proof (dropWhile_length notTerminator s). lia.
Qed.

Lemma sentences_concat : forall n s,
  (List.length s <= n)%nat ->
  concat (matchAll matchSentence s) = dropWhile isTerminator s.
Proof.
  induction n as [|n IH]; intros [|c s] Hlen; simpl in Hlen;
    try reflexivity; try lia.
  rewrite matchAll_sentence_cons. cbn [dropWhile].
  unfold notTerminator at 1. destruct (isTerminator c) eqn:E; cbn [negb].
  - apply IH. lia.
  - cbn [concat]. rewrite IH.
    + unfold afterSentence at 1. rewrite dropWhile_idem.
      apply sentence_split.
    + pose proof (afterSentence_shorter c s). unfold notTerminator in H.
      rewrite E in H. specialize (H eq_refl). lia.
Qed.

Lemma sentences_none : forall s,
  matchAll matchSentence s = [] <-> forallb isTerminator s = true.
Proof.
  induction s as [|c s IH]; [split; reflexivity|].
  rewrite matchAll_sentence_cons. cbn [forallb].
  unfold notTerminator at 1. destruct (isTerminator c); cbn [negb andb].
  - exact IH.
  - split; discriminate.
Qed.

(** X4: cutting a text into sentences loses nothing but terminators that
    stand before the first sentence: the sentences put together are the
    text from its first unit that is no terminator on, and the whole text
    when it holds terminators only. *)
Theorem sentences_cover_text : forall s,
  concat (sentencesOf s)
  = (if forallb isTerminator s then s else dropWhile isTerminator s)
  /\ ((forall c rest, s = c :: rest -> isTerminator c = false) ->
      concat (sentencesOf s) = s).
Proof.
  intros s.
  assert (H : concat (sentencesOf s)
              = if forallb isTerminator s then s
                else dropWhile isTerminator s).
  { unfold sentencesOf.
    destruct (matchAll matchSentence s) as [|x l] eqn:E.
    - apply sentences_none in E. rewrite E. cbn. apply app_nil_r.
    - destruct (forallb isTerminator s) eqn:F.
      + apply sentences_none in F. congruence.
      + rewrite <- E. apply (sentences_concat _ _ (le_n _)). }
  split; [exact H|].
  intros Hhead. rewrite H.
  destruct s as [|c rest]; [reflexivity|].
  cbn [forallb dropWhile]. rewrite (Hhead c rest eq_refl). reflexivity.
Qed.

Lemma dropWhile_app_stop (p : N -> bool) : forall a c r,
  Forall (fun x => p x = true) a -> p c = false ->
  dropWhile p (a ++ c :: r) = c :: r /\ takeWhile p (a ++ c :: r) = a.
Proof.
  induction a as [|x a IH]; intros c r Ha Hc.
  - simpl. rewrite Hc. split; reflexivity.
  - inversion Ha as [|? ? Hx Ha']; subst. cbn [app dropWhile takeWhile].
    rewrite Hx. destruct (IH c r Ha' Hc) as [H1 H2].
    split; [exact H1 | f_equal; exact H2].
Qed.

Lemma dropWhile_app_all (p : N -> bool) : forall a,
  Forall (fun x => p x = true) a ->
  dropWhile p a = [] /\ takeWhile p a = a.
Proof.
  induction 1 as [|x a Hx Ha [IH1 IH2]]; [split; reflexivity|].
  simpl. rewrite Hx. split; [exact IH1 | f_equal; exact IH2].
Qed.

Lemma firstSentence_shape : forall c s,
  notTerminator c = true ->
  sentenceShape (firstSentence (c :: s))
  /\ (dropWhile notTerminator (c :: s) <> [] ->
      terminated (firstSentence (c :: s))).
Proof.
  intros c s Hc. unfold sentenceShape, terminated, firstSentence.
  pose proof (takeWhile_all notTerminator (c :: s)) as Hrun.
  pose proof (takeWhile_all isTerminator (dropWhile notTerminator (c :: s)))
    as Hterm.
  set (run := takeWhile notTerminator (c :: s)) in *.
  set (rest := dropWhile notTerminator (c :: s)) in *.
  assert (Hne : run <> []).
  { unfold run. cbn [takeWhile]. rewrite Hc. discriminate. }
  destruct (takeWhile isTerminator rest) as [|t ts] eqn:Et.
  - rewrite app_nil_r.
    destruct (dropWhile_app_all notTerminator run Hrun) as [Hd Ht].
    rewrite Hd, Ht. split; [split; [exact Hne | constructor]|].
    intros Hrest. destruct rest as [|r0 rest'] eqn:Er; [congruence|].
    pose proof (dropWhile_head notTerminator (c :: s) r0 rest' Er) as Hr0.
    cbn [takeWhile] in Et. unfold notTerminator in Hr0.
    destruct (isTerminator r0); [discriminate | discriminate].
  - inversion Hterm as [|? ? Ht0 Hts]; subst.
    assert (Hstop : notTerminator t = false)
      by (unfold notTerminator; rewrite Ht0; reflexivity).
    destruct (dropWhile_app_stop notTerminator run t ts Hrun Hstop)
      as [Hd Htk].
    rewrite Hd, Htk.
    split; [split; [exact Hne | exact Hterm] | intros _; discriminate].
Qed.

Lemma sentences_shape : forall n s,
  (List.length s <= n)%nat ->
  Forall sentenceShape (matchAll matchSentence s)
  /\ (forall pre x y post,
        matchAll matchSentence s = pre ++ x :: y :: post -> terminated x).
Proof.
  induction n as [|n IH]; intros [|c s] Hlen; simpl in Hlen; try lia.
  1, 2: split; [constructor | intros [|? ?] ? ? ? H; discriminate H].
  rewrite matchAll_sentence_cons.
  destruct (notTerminator c) eqn:Hc; [|apply IH; lia].
  pose proof (afterSentence_shorter c s Hc) as Hshort.
  destruct (IH (afterSentence (c :: s)) ltac:(lia)) as [IH1 IH2].
  destruct (firstSentence_shape c s Hc) as [Hshape Hterm].
  split; [constructor; assumption|].
  intros pre x y post E.
  destruct pre as [|p pre].
  - cbn [app] in E. injection E as <- E. apply Hterm.
    intros Hnil. unfold afterSentence in E. rewrite Hnil in E.
    discriminate E.
  - cbn [app] in E. injection E as _ E. exact (IH2 _ _ _ _ E).
Qed.

(** X5: every sentence of the segmentation is a non-empty run without
    terminator followed by terminators only, and every sentence but the
    last ends in a terminator. *)
Theorem sentences_keep_their_terminators : forall s,
  Forall sentenceShape (matchAll matchSentence s)
  /\ (forall pre x y post,
        matchAll matchSentence s = pre ++ x :: y :: post -> terminated x).
Proof. intros s. exact (sentences_shape _ s (le_n _)). Qed.

(** ** The utterances of the native path *)

Lemma trimEnd_nil : forall s,
  trimEnd s = [] -> Forall (fun c => isSpace c = true) s.
Proof.
  induction s as [|c s IH]; intros H; [constructor|].
  simpl in H. destruct (trimEnd s) as [|d r]; [|discriminate].
  destruct (isSpace c) eqn:E; [|discriminate].
  constructor; [exact E | apply IH; reflexivity].
Qed.

Lemma trim_nil : forall s,
  trim s = [] -> Forall (fun c => isSpace c = true) s.
Proof.
  intros s H. unfold trim in H. apply trimEnd_nil in H.
  pose proof (dropWhile_startsSpace s) as Hs.
  induction s as [|c s IH]; [constructor|].
  simpl in *. destruct (isSpace c) eqn:E.
  - constructor; [exact E | exact (IH H Hs)].
  - inversion H; subst. simpl in Hs. congruence.
Qed.

Lemma trim_nonblank : forall s c,
  In c s -> isSpace c = false -> trim s <> [].
Proof.
  intros s c Hin Hc Hnil. apply trim_nil in Hnil.
  rewrite Forall_forall in Hnil. rewrite (Hnil c Hin) in Hc. discriminate.
Qed.

Lemma terminator_not_space : forall c,
  isTerminator c = true -> isSpace c = false.
Proof.
  intros c H. unfold isTerminator in H.
  apply orb_true_iff in H. destruct H as [H|H];
    [apply orb_true_iff in H; destruct H as [H|H]|];
    apply N.eqb_eq in H; subst c; reflexivity.
Qed.

Lemma lastSolid_suffix : forall a b, lastSolid (a ++ b) -> lastSolid b.
Proof.
  intros a b H pre c E. apply (H (a ++ pre) c).
  rewrite E. apply app_assoc.
Qed.

Lemma lastSolid_nonblank : forall s,
  s <> [] -> lastSolid s -> trim s <> [].
Proof.
  intros s Hne Hl.
  destruct (exists_last Hne) as (pre & c & E).
  apply (trim_nonblank s c).
  - rewrite E. apply in_or_app. right. left. reflexivity.
  - exact (Hl pre c E).
Qed.

Lemma sentences_nonblank : forall n s,
  (List.length s <= n)%nat -> lastSolid s ->
  Forall (fun x => trim x <> []) (matchAll matchSentence s).
Proof.
  induction n as [|n IH]; intros [|c s] Hlen Hl; simpl in Hlen;
    try constructor; try lia.
  rewrite matchAll_sentence_cons.
  destruct (notTerminator c) eqn:Hc.
  - pose proof (sentence_split (c :: s)) as Hs.
    constructor.
    + unfold firstSentence.
      destruct (dropWhile notTerminator (c :: s)) as [|t r] eqn:Ed.
      * change (takeWhile isTerminator []) with (@nil N).
        rewrite app_nil_r.
        pose proof (takeWhile_dropWhile notTerminator (c :: s)) as Ht.
        rewrite Ed, app_nil_r in Ht. rewrite Ht.
        apply lastSolid_nonblank; [discriminate | exact Hl].
      * pose proof (dropWhile_head notTerminator _ _ _ Ed) as Ht.
        unfold notTerminator in Ht. apply negb_false_iff in Ht.
        apply (trim_nonblank _ t).
        -- apply in_or_app. right. cbn [takeWhile]. rewrite Ht.
           left. reflexivity.
        -- exact (terminator_not_space t Ht).
    + apply IH.
      * pose proof (afterSentence_shorter c s Hc). lia.
      * apply (lastSolid_suffix (firstSentence (c :: s))).
        rewrite Hs. exact Hl.
  - apply IH; [lia|]. apply (lastSolid_suffix [c]). exact Hl.
Qed.

Lemma sentencesOf_nonblank : forall s,
  s <> [] -> lastSolid s -> Forall (fun x => trim x <> []) (sentencesOf s).
Proof.
  intros s Hne Hl. unfold sentencesOf.
  destruct (matchAll matchSentence s) as [|x l] eqn:E.
  - constructor; [|constructor]. exact (lastSolid_nonblank s Hne Hl).
  - rewrite <- E. exact (sentences_nonblank _ s (le_n _) Hl).
Qed.

Lemma utterancesOf_all (c : Controller) (tag : jsstring) (opts : Options)
    (count : nat) : forall sentences index,
  Forall (fun x => trim x <> []) sentences ->
  utterancesOf c tag opts count index sentences
  = map (fun p => utteranceFor c tag opts count (fst p) (snd p))
      (indexed index sentences).
Proof.
  induction sentences as [|x l IH]; intros index H; [reflexivity|].
  inversion H as [|? ? Hx Hl]; subst.
  cbn [utterancesOf indexed List.length seq combine map fst snd].
  destruct (trim x) eqn:E; [congruence|].
  f_equal. exact (IH (S index) Hl).
Qed.

Lemma indexed_from : forall sentences from p,
  In p (indexed from sentences) ->
  (from <= fst p < from + List.length sentences)%nat.
Proof.
  induction sentences as [|x l IH]; intros from p H; [destruct H|].
  cbn [indexed List.length seq combine] in H. destruct H as [<- | H].
  - simpl. lia.
  - apply (IH (S from)) in H. simpl. lia.
Qed.

Lemma indexed_last : forall front x from,
  indexed from (front ++ [x])
  = indexed from front ++ [((from + List.length front)%nat, x)].
Proof.
  induction front as [|y front IH]; intros x from.
  - cbn. rewrite Nat.add_0_r. reflexivity.
  - cbn [app indexed List.length seq combine].
    fold (indexed (S from) (front ++ [x])). rewrite IH.
    fold (indexed (S from) front).
    replace (S from + List.length front)%nat
      with (from + S (List.length front))%nat by lia.
    reflexivity.
Qed.

Lemma sanitize_lastSolid : forall text, lastSolid (sanitize text).
Proof.
  intros text pre x E.
  destruct (sanitize_shape text) as (_ & _ & Htrim).
  rewrite <- Htrim in E. unfold trim in E. exact (trimEnd_last _ _ _ E).
Qed.

Lemma sentencesOf_nonempty : forall s, sentencesOf s <> [].
Proof.
  intros s. unfold sentencesOf.
  destruct (matchAll matchSentence s); discriminate.
Qed.

(** The utterances of a text that is not empty and does not end in white
    space. *)
Lemma localUtterances_shape : forall tag base readable opts c,
  readable <> [] -> lastSolid readable ->
  map u_text (localUtterances tag base readable opts c)
  = map trim (sentencesOf readable)
  /\ (exists u rest,
        localUtterances tag base readable opts c = u :: rest
        /\ u_onstart u = o_onStart opts
        /\ Forall (fun v => u_onstart v = None) rest)
  /\ (exists front u,
        localUtterances tag base readable opts c = front ++ [u]
        /\ u_onend u = o_onEnd opts
        /\ Forall (fun v => u_onend v = None) front).
Proof.
  intros tag base readable opts c Hne Hl. unfold localUtterances.
  set (c' := adoptVoice base c).
  pose proof (sentencesOf_nonblank _ Hne Hl) as Hall.
  pose proof (sentencesOf_nonempty readable) as Hss.
  set (ss := sentencesOf readable) in *. clearbody ss.
  rewrite (utterancesOf_all c' tag opts (List.length ss) ss 0 Hall).
  set (f := fun p : nat * jsstring =>
              utteranceFor c' tag opts (List.length ss) (fst p) (snd p)).
  split; [|split].
  - rewrite map_map. unfold indexed.
    clear. generalize 0%nat. induction ss as [|x l IH]; intros k;
      [reflexivity|]. cbn. f_equal. apply IH.
  - destruct ss as [|x l]; [congruence|].
    exists (f (0%nat, x)), (map f (indexed 1 l)).
    split; [reflexivity|]. split; [reflexivity|].
    apply Forall_forall. intros v Hv. apply in_map_iff in Hv.
    destruct Hv as (p & <- & Hp). apply indexed_from in Hp.
    unfold f, utteranceFor. cbn [u_onstart].
    destruct (Nat.eqb (fst p) 0) eqn:E; [|reflexivity].
    apply Nat.eqb_eq in E. lia.
  - destruct (exists_last Hss) as (front & x & E).
    exists (map f (indexed 0 front)), (f (List.length front, x)).
    assert (Hlen : List.length ss = S (List.length front)).
    { rewrite E, length_app. simpl. lia. }
    split; [|split].
    + replace (indexed 0 ss) with (indexed 0 (front ++ [x]))
        by (rewrite <- E; reflexivity).
      rewrite indexed_last, map_app. reflexivity.
    + unfold f, utteranceFor. cbn [u_onend fst snd]. rewrite Hlen.
      replace (S (List.length front) - 1)%nat with (List.length front) by lia.
      rewrite Nat.eqb_refl. reflexivity.
    + apply Forall_forall. intros v Hv. apply in_map_iff in Hv.
      destruct Hv as (p & <- & Hp). apply indexed_from in Hp.
      unfold f, utteranceFor. cbn [u_onend]. rewrite Hlen.
      destruct (Nat.eqb (fst p) (S (List.length front) - 1)) eqn:E';
        [|reflexivity].
      apply Nat.eqb_eq in E'. lia.
Qed.

Lemma speak_native_spoken : forall text opts w,
  needsFallback (beforeHyphen (effectiveLang opts (ctl w))) (ctl w) = false ->
  spoken (traceOf (speak text opts w))
  = localUtterances (effectiveLang opts (ctl w))
      (beforeHyphen (effectiveLang opts (ctl w))) (sanitize text) opts
      (ctl (worldOf (stopSpeaking w))).
Proof.
  intros text opts w Hlocal.
  destruct (speak_spec text opts w) as [Ht _]. rewrite Ht, Hlocal. clear Ht.
  match goal with |- context [speakLocal ?t ?b ?r ?o ?x] =>
    destruct (speakLocal_spec t b r o x) as [Ht _]; rewrite Ht; clear Ht
  end.
  rewrite spoken_app. cbn [spoken flat_map app].
  change (flat_map _ (map SynthSpeak ?us)) with (spoken (map SynthSpeak us)).
  apply spoken_synth.
Qed.

(** X6: on the native path with a non-empty sanitised text, [speak]
    submits one utterance for every sentence, none is skipped; [onStart]
    is attached to the first utterance and to no other, [onEnd] to the last
    and to no other. *)
Theorem speak_native_one_utterance_per_sentence : forall text opts w,
  needsFallback (beforeHyphen (effectiveLang opts (ctl w))) (ctl w) = false ->
  sanitize text <> [] ->
  map u_text (spoken (traceOf (speak text opts w)))
  = map trim (sentencesOf (sanitize text))
  /\ (exists u rest,
        spoken (traceOf (speak text opts w)) = u :: rest
        /\ u_onstart u = o_onStart opts
        /\ Forall (fun v => u_onstart v = None) rest)
  /\ (exists front u,
        spoken (traceOf (speak text opts w)) = front ++ [u]
        /\ u_onend u = o_onEnd opts
        /\ Forall (fun v => u_onend v = None) front).
Proof.
  intros text opts w Hlocal Hne.
  rewrite (speak_native_spoken text opts w Hlocal).
  apply localUtterances_shape; [exact Hne | apply sanitize_lastSolid].
Qed.


(** ** More on voice selection *)

Lemma assoc_in : forall k m v,
  assoc k m = Some v -> In (k, v) m.
Proof.
  induction m as [|[k' v'] m IH]; intros v H; simpl in H; [discriminate|].
  destruct (eqb k k') eqn:E.
  - apply eqb_eq in E. injection H as <-. subst k'. left. reflexivity.
  - right. exact (IH v H).
Qed.

Lemma langMap_keeps_subtag : forall k v,
  assoc k langMap = Some v ->
  v <> [] /\ beforeHyphen v = beforeHyphen k.
Proof.
  intros k v H. apply assoc_in in H.
  assert (Hall : forallb (fun p => negb (eqb (snd p) [])
                                   && eqb (beforeHyphen (snd p))
                                          (beforeHyphen (fst p)))
                   langMap = true) by (vm_compute; reflexivity).
  rewrite forallb_forall in Hall. specialize (Hall _ H). cbn [fst snd] in Hall.
  apply andb_true_iff in Hall. destruct Hall as [H1 H2].
  apply eqb_eq in H2. split; [|exact H2].
  intros ->. discriminate.
Qed.

(** X7: the table of short codes never changes which voices match: for a
    language other than auto, the normalised tag has the primary subtag of
    the language as given, so [setVoice] filters the catalogue by that. With
    auto the tag is [navigator.language], or en-US when that is empty. *)
Theorem normalizeLang_keeps_primary_subtag : forall language code,
  normalizeLang language = Some code ->
  (eqb language (js "auto") = false ->
   beforeHyphen code = beforeHyphen language
   /\ forall vs, filter (speaksLang code) vs = filter (speaksLang language) vs)
  /\ (language = js "auto" ->
      code = match navigatorLanguage with [] => js "en-US" | _ => navigatorLanguage end).
Proof.
  intros language code H. unfold normalizeLang in H. split.
  - intros Hauto. rewrite Hauto in H.
    assert (Hsub : beforeHyphen code = beforeHyphen language).
    { destruct (assoc language langMap) as [full|] eqn:E.
      - destruct (langMap_keeps_subtag _ _ E) as [Hne Hsub].
        injection H as <-. destruct full; [congruence | exact Hsub].
      - destruct (existsb (eqb language) inheritedKeys); [discriminate|].
        injection H as <-. reflexivity. }
    split; [exact Hsub|].
    intros vs. unfold speaksLang. rewrite Hsub. reflexivity.
  - intros ->. cbn in H. injection H as <-.
    destruct navigatorLanguage; reflexivity.
Qed.

(** X8: [setVoice] reads nothing of what it writes: a call overrides the
    call before it, and repeating a call changes nothing. *)
Theorem setVoice_last_call_wins : forall g1 l1 g2 l2 c c1,
  setVoice g1 l1 c = Some c1 ->
  setVoice g2 l2 c1 = setVoice g2 l2 c
  /\ setVoice g1 l1 c1 = Some c1.
Proof.
  intros g1 l1 g2 l2 c c1 H.
  assert (Hany : forall g l, setVoice g l c1 = setVoice g l c).
  { intros g l. unfold setVoice in *.
    destruct (normalizeLang l1); [|discriminate]. injection H as <-.
    destruct (normalizeLang l); reflexivity. }
  split; [apply Hany|]. rewrite Hany. exact H.
Qed.

(** X9: [loadVoices] replaces the catalogue and selects again for the stored
    preferences, which it keeps; the voice it selects is in the new
    catalogue. With an empty new catalogue nothing is selected again: the
    earlier voice stays selected although the catalogue no longer holds it.
    Loading the same catalogue twice is loading it once. *)
Theorem loadVoices_reselects : forall vs c c',
  loadVoices vs c = Some c' ->
  voices c' = vs
  /\ preferredGender c' = preferredGender c
  /\ preferredLang c' = preferredLang c
  /\ (vs = [] -> selectedVoice c' = selectedVoice c
                 /\ currentLang c' = currentLang c)
  /\ (vs <> [] -> forall v, selectedVoice c' = Some v -> In v vs)
  /\ loadVoices vs c' = Some c'.
Proof.
  intros vs c c' H. unfold loadVoices in *.
  destruct vs as [|v0 vs'].
  - injection H as <-. cbn. repeat split; try reflexivity. congruence.
  - cbn [preferredGender preferredLang] in *. unfold setVoice in *.
    destruct (normalizeLang (preferredLang c)) as [code|] eqn:E;
      [|discriminate].
    injection H as <-. cbn [voices preferredGender preferredLang selectedVoice].
    rewrite E.
    repeat split; try reflexivity; try discriminate.
    intros _ v Hv. apply pickVoice_in in Hv.
    exact (proj1 (proj1 (filter_In (speaksLang code) v (v0 :: vs')) Hv)).
Qed.

Lemma find_exists {A : Type} (f : A -> bool) (l : list A) :
  (exists x, In x l /\ f x = true) -> exists y, find f l = Some y.
Proof.
  intros (x & Hx & Hf). destruct (find f l) as [y|] eqn:E.
  - exists y. reflexivity.
  - rewrite (find_none f l E x Hx) in Hf. discriminate.
Qed.

(** X10: among the voices of the language, a voice whose name holds a
    keyword of the requested gender is preferred to every other, and among
    those one whose name holds a quality keyword as well. *)
Theorem setVoice_prefers_gender_then_quality :
  forall gender language code c c',
  normalizeLang language = Some code ->
  setVoice gender language c = Some c' ->
  (exists v, In v (voices c) /\ speaksLang code v = true
             /\ hasKeyword (genderKeywords gender) v = true) ->
  exists best,
    selectedVoice c' = Some best
    /\ hasKeyword (genderKeywords gender) best = true
    /\ ((exists v, In v (voices c) /\ speaksLang code v = true
                   /\ hasKeyword (genderKeywords gender) v = true
                   /\ hasKeyword priorityKeywords v = true) ->
        hasKeyword priorityKeywords best = true).
Proof.
  intros gender language code c c' Hn H (v & Hv & Hs & Hk).
  unfold setVoice in H. rewrite Hn in H. injection H as <-.
  cbn [selectedVoice].
  set (matching := filter (speaksLang code) (voices c)).
  assert (Hin : In v matching) by (apply filter_In; split; assumption).
  assert (Hpick : pickVoice gender matching
                  = orElse (find (fun x => hasKeyword (genderKeywords gender) x
                                           && hasKeyword priorityKeywords x)
                              matching)
                      (find (hasKeyword (genderKeywords gender)) matching)).
  { destruct (find_exists (hasKeyword (genderKeywords gender)) matching)
      as [y Hy]; [exists v; split; assumption|].
    unfold pickVoice, genderKeywords in *.
    destruct matching as [|m0 ms]; [destruct Hin|].
    destruct (eqb gender (js "female")); rewrite Hy; reflexivity. }
  rewrite Hpick.
  destruct (find (fun x => hasKeyword (genderKeywords gender) x
                           && hasKeyword priorityKeywords x) matching)
    as [b|] eqn:E1.
  - apply find_some in E1. destruct E1 as [_ E1].
    apply andb_true_iff in E1. destruct E1 as [Eg Ep].
    exists b. cbn. repeat split; auto.
  - destruct (find_exists (hasKeyword (genderKeywords gender)) matching)
      as [y Hy]; [exists v; split; assumption|].
    exists y. cbn. rewrite Hy. split; [reflexivity|].
    apply find_some in Hy. split; [exact (proj2 Hy)|].
    intros (v' & Hv' & Hs' & Hk' & Hp').
    assert (Hin' : In v' matching) by (apply filter_In; split; assumption).
    pose proof (find_none _ _ E1 v' Hin') as Hno. cbn in Hno.
    rewrite Hk', Hp' in Hno. discriminate.
Qed.

(** X11: what [setVoice] does when no voice of the language carries a
    keyword of the requested gender. A request that is not female takes the
    first voice whose name holds no female keyword, when there is one; a
    female request takes the first voice of the language whatever its
    name. *)
Theorem setVoice_without_gender_keyword :
  forall gender language code c c',
  normalizeLang language = Some code ->
  setVoice gender language c = Some c' ->
  (forall v, In v (voices c) -> speaksLang code v = true ->
             hasKeyword (genderKeywords gender) v = false) ->
  (eqb gender (js "female") = true ->
   selectedVoice c' = hd_error (filter (speaksLang code) (voices c)))
  /\ (eqb gender (js "female") = false ->
      (exists v, In v (voices c) /\ speaksLang code v = true
                 /\ hasKeyword femaleKeywords v = false) ->
      exists best, selectedVoice c' = Some best
                   /\ hasKeyword femaleKeywords best = false).
Proof.
  intros gender language code c c' Hn H Hnone.
  unfold setVoice in H. rewrite Hn in H. injection H as <-.
  cbn [selectedVoice].
  set (matching := filter (speaksLang code) (voices c)).
  assert (Hno : forall f,
            find (fun x => hasKeyword (genderKeywords gender) x && f x)
              matching = None
            /\ find (hasKeyword (genderKeywords gender)) matching = None).
  { intros f. split.
    - destruct (find _ matching) as [y|] eqn:E; [|reflexivity].
      apply find_some in E. destruct E as [Hy E].
      apply filter_In in Hy. rewrite (Hnone y (proj1 Hy) (proj2 Hy)) in E.
      discriminate.
    - destruct (find _ matching) as [y|] eqn:E; [|reflexivity].
      apply find_some in E. destruct E as [Hy E].
      apply filter_In in Hy. rewrite (Hnone y (proj1 Hy) (proj2 Hy)) in E.
      discriminate. }
  unfold genderKeywords in Hno. split.
  - intros Hf. rewrite Hf in Hno. unfold pickVoice. rewrite Hf.
    destruct matching as [|m0 ms] eqn:Em; [reflexivity|].
    destruct (Hno (hasKeyword priorityKeywords)) as [H1 H2].
    rewrite H1, H2. reflexivity.
  - intros Hf (v & Hv & Hs & Hk). rewrite Hf in Hno.
    unfold pickVoice. rewrite Hf.
    assert (Hin : In v matching) by (apply filter_In; split; assumption).
    destruct matching as [|m0 ms] eqn:Em; [destruct Hin|].
    destruct (Hno (hasKeyword priorityKeywords)) as [H1 H2].
    rewrite H1, H2. cbn [orElse].
    destruct (find_exists (fun x => negb (hasKeyword femaleKeywords x))
                (m0 :: ms)) as [y Hy].
    { exists v. split; [exact Hin | rewrite Hk; reflexivity]. }
    rewrite Hy. exists y. split; [reflexivity|].
    apply find_some in Hy. apply negb_true_iff. exact (proj2 Hy).
Qed.

(** ** What the operations leave alone *)

Section Views.

Context {X : Type} (view : World -> X).

Lemma view_bind {A B : Type} (m : Act A) (k : A -> Act B) :
  keepsView view m -> (forall x, keepsView view (k x)) ->
  keepsView view (bind m k).
Proof. intros Hm Hk w. rewrite worldOf_bind, Hk. apply Hm. Qed.

Lemma view_ret {A : Type} (x : A) : keepsView view (ret x).
Proof. intros w. reflexivity. Qed.

Lemma view_emit (e : Event) : keepsView view (emit e).
Proof. intros w. reflexivity. Qed.

Lemma view_get : keepsView view get.
Proof. intros w. reflexivity. Qed.

Lemma view_invoke cb args : keepsView view (invoke cb args).
Proof. intros w. destruct cb; reflexivity. Qed.

Lemma view_update (f : World -> World) :
  (forall w, view (f w) = view w) -> keepsView view (update f).
Proof. intros H w. apply H. Qed.

Lemma view_speakLocal tag base readable opts :
  (forall q st w, view (withSynth q st (withCtl (adoptVoice base) w))
                  = view w) ->
  keepsView view (speakLocal tag base readable opts).
Proof.
  intros H w. destruct (speakLocal_spec tag base readable opts w) as [_ E].
  rewrite E. apply H.
Qed.

Lemma view_done (a : Act unit) :
  keepsView view a ->
  forall w w' tr, done a w = Some (w', tr) -> view w' = view w.
Proof. intros Ha w w' tr H. injection H as <- <-. apply Ha. Qed.

End Views.

Ltac view_step side :=
  match goal with
  | |- keepsView _ (speakLocal _ _ _ _) => apply view_speakLocal; side
  | |- keepsView _ (ret _) => apply view_ret
  | |- keepsView _ (emit _) => apply view_emit
  | |- keepsView _ get => apply view_get
  | |- keepsView _ (invoke _ _) => apply view_invoke
  | |- keepsView _ (update _) => apply view_update; intros ?; reflexivity
  | |- keepsView _ (bind _ _) => apply view_bind; [|intros ?]
  | |- keepsView _ (if ?b then _ else _) => destruct b
  | |- keepsView _ (match ?x with _ => _ end) => destruct x
  | |- keepsView _ (settle _ _) => unfold settle
  | |- keepsView _ (resumeFailed _) => unfold resumeFailed
  | |- keepsView _ (resumeDone _) => unfold resumeDone
  | |- keepsView _ (speak _ _) => unfold speak
  | |- keepsView _ (speakRemote _ _ _ _) => unfold speakRemote
  | |- keepsView _ (playGoogleTTS _ _ _ _) => unfold playGoogleTTS
  | |- keepsView _ stopSpeaking => unfold stopSpeaking
  | |- keepsView _ synthesis_cancel => unfold synthesis_cancel
  | |- keepsView _ audio_pause => unfold audio_pause
  | |- keepsView _ (audio_seek _) => unfold audio_seek
  | |- keepsView _ unlock => unfold unlock
  | |- keepsView _ (startListening _ _ _) => unfold startListening
  | |- keepsView _ stopListening => unfold stopListening
  | |- keepsView _ (audio_load _) => unfold audio_load
  | |- keepsView _ audio_play => unfold audio_play
  end.

Ltac adopt_side :=
  let c := fresh "c" in
  let sv := fresh "sv" in
  let vs := fresh "vs" in
  intros ? ? [c ? ? ? ? ? ? ? ?];
  destruct c as [? ? sv vs ? ? ? ? ? ? ?];
  destruct sv; [reflexivity|]; destruct vs; reflexivity.

Lemma setVoice_frame : forall gender language c c',
  setVoice gender language c = Some c' ->
  recognition c' = recognition c /\ isListening c' = isListening c
  /\ voices c' = voices c.
Proof.
  intros gender language c c' H. unfold setVoice in H.
  destruct (normalizeLang language); [|discriminate].
  injection H as <-. repeat split.
Qed.

Lemma loadVoices_frame : forall vs c c',
  loadVoices vs c = Some c' ->
  recognition c' = recognition c /\ isListening c' = isListening c.
Proof.
  intros vs c c' H. unfold loadVoices in H. destruct vs as [|v vs].
  - injection H as <-. split; reflexivity.
  - apply setVoice_frame in H. destruct H as (H1 & H2 & _).
    split; assumption.
Qed.

(** The speaking operations leave the listening state alone. *)
Lemma exec_keeps_listening : forall op w w' tr,
  isListeningOp op = false ->
  exec op w = Some (w', tr) ->
  listeningPart w' = listeningPart w.
Proof.
  intros op w w' tr Hop H.
  destruct op; try discriminate Hop; cbn [exec] in H.
  1, 2: unfold liftCtl in H;
        match type of H with
        | match ?x with _ => _ end = _ => destruct x as [c'|] eqn:E
        end; [|discriminate]; injection H as <- <-;
        unfold listeningPart; cbn;
        first [ apply loadVoices_frame in E
              | apply setVoice_frame in E; destruct E as (E1 & E2 & _);
                pose proof (conj E1 E2) as E ];
        destruct E as [-> ->]; reflexivity.
  all: split_exec H.
  all: eapply (view_done listeningPart); [|exact H].
  all: repeat view_step adopt_side.
Qed.

(** The listening operations leave the speaking state alone. *)
Lemma exec_keeps_speech : forall op w w' tr,
  isListeningOp op = true ->
  exec op w = Some (w', tr) ->
  speechPart w' = speechPart w.
Proof.
  intros op w w' tr Hop H.
  destruct op; try discriminate Hop; cbn [exec] in H.
  all: split_exec H.
  all: eapply (view_done speechPart); [|exact H].
  all: repeat view_step idtac.
Qed.

(** X12: speaking and listening do not interfere. An operation of the
    speaking side (voice selection, speak, stopSpeaking, unlock and the
    notifications of the synthesiser, the audio element and the network)
    leaves the listening flag and the recogniser as they are; an operation
    of the listening side leaves everything else as it is. *)
Theorem speaking_and_listening_are_independent : forall op w w' tr,
  exec op w = Some (w', tr) ->
  if isListeningOp op then speechPart w' = speechPart w
  else listeningPart w' = listeningPart w.
Proof.
  intros op w w' tr H. destruct (isListeningOp op) eqn:E.
  - exact (exec_keeps_speech op w w' tr E H).
  - exact (exec_keeps_listening op w w' tr E H).
Qed.

Lemma exec_keeps_fixed : forall op w w' tr,
  isLoadVoices op = false ->
  exec op w = Some (w', tr) ->
  fixedPart w' = fixedPart w.
Proof.
  intros op w w' tr Hop H.
  destruct op; try discriminate Hop; cbn [exec] in H.
  1: unfold liftCtl in H;
     destruct (setVoice gender language (ctl w)) as [c'|] eqn:E;
     [|discriminate]; injection H as <- <-;
     apply setVoice_frame in E; destruct E as (E1 & _ & E3);
     unfold fixedPart; cbn; rewrite E1, E3; reflexivity.
  all: split_exec H.
  all: eapply (view_done fixedPart); [|exact H].
  all: repeat view_step adopt_side.
Qed.

Lemma execAll_keeps_fixed : forall ops w w' tr,
  forallb (fun op => negb (isLoadVoices op)) ops = true ->
  execAll ops w = Some (w', tr) ->
  fixedPart w' = fixedPart w.
Proof.
  induction ops as [|op ops IH]; intros w w' tr Hops H; simpl in H.
  - injection H as <- <-. reflexivity.
  - cbn [forallb] in Hops. apply andb_true_iff in Hops.
    destruct Hops as [Hop Hops]. apply negb_true_iff in Hop.
    destruct (exec op w) as [[w1 t1]|] eqn:E1; [|discriminate].
    destruct (execAll ops w1) as [[w2 t2]|] eqn:E2; [|discriminate].
    injection H as <- <-.
    rewrite (IH _ _ _ Hops E2). exact (exec_keeps_fixed _ _ _ _ Hop E1).
Qed.

(** X13: whether a recogniser exists is settled by the constructor, and only
    [loadVoices] changes the catalogue. On a platform without speech
    recognition [init] returns before the voices are loaded, so as long as
    nobody calls [loadVoices] the catalogue stays empty and every [speak]
    attempts the remote path. *)
Theorem without_recognition_speech_is_remote : forall vs w ops w' tr,
  newController false vs = Some w ->
  forallb (fun op => negb (isLoadVoices op)) ops = true ->
  execAll ops w = Some (w', tr) ->
  recognition (ctl w') = false
  /\ voices (ctl w') = []
  /\ forall text opts,
       remoteAttempted (traceOf (speak text opts w')) = true.
Proof.
  intros vs w ops w' tr Hnew Hops Hrun.
  injection Hnew as <-.
  pose proof (execAll_keeps_fixed _ _ _ _ Hops Hrun) as Hfix.
  unfold fixedPart in Hfix. cbn in Hfix. injection Hfix as Hr Hv.
  split; [exact Hr|]. split; [exact Hv|].
  intros text opts. rewrite speak_attempts_remote.
  unfold needsFallback. rewrite Hv. cbn. apply orb_true_r.
Qed.

(** ** Speaking: composition and life cycle *)

Lemma utterancesOf_in (c : Controller) (tag : jsstring) (opts : Options)
    (count : nat) : forall sentences index u,
  In u (utterancesOf c tag opts count index sentences) ->
  exists i x, u = utteranceFor c tag opts count i x.
Proof.
  induction sentences as [|x l IH]; intros index u H; [destruct H|].
  cbn [utterancesOf] in H. destruct (trim x).
  - exact (IH _ _ H).
  - destruct H as [<- | H]; [exists index, x; reflexivity | exact (IH _ _ H)].
Qed.

Lemma numOr_nonzero : forall a b, ~ (b == 0)%Q -> ~ (numOr a b == 0)%Q.
Proof.
  intros [q|] b Hb; [|exact Hb]. unfold numOr.
  destruct (Qeq_bool q 0) eqn:E; [exact Hb|].
  apply Qeq_bool_neq. exact E.
Qed.

(** X14: all utterances of one native run are alike: they carry the
    effective language tag and the voice that is selected when the run
    ends, and never a pitch or a rate of zero (a zero in the options counts
    as absent). When the preferred gender is male and the name of the voice
    holds none of male, david and mark, pitch and rate are 0.7 and 0.95
    whatever the options ask for. *)
Theorem native_utterances_are_uniform : forall tag base readable opts w u,
  In u (spoken (traceOf (speakLocal tag base readable opts w))) ->
  u_lang u = tag
  /\ u_voice u = selectedVoice (ctl (worldOf (speakLocal tag base readable opts w)))
  /\ ~ (u_pitch u == 0)%Q
  /\ ~ (u_rate u == 0)%Q
  /\ (pitchShifted (ctl (worldOf (speakLocal tag base readable opts w))) = true ->
      u_pitch u = 0.7%Q /\ u_rate u = 0.95%Q).
Proof.
  intros tag base readable opts w u H.
  destruct (speakLocal_spec tag base readable opts w) as [Ht Hw].
  rewrite Ht, spoken_synth in H. rewrite Hw. clear Ht Hw.
  unfold localUtterances in H. apply utterancesOf_in in H.
  destruct H as (i & x & ->).
  cbn [ctl withSynth withCtl]. unfold utteranceFor.
  cbn [u_lang u_voice u_pitch u_rate].
  split; [reflexivity|]. split; [reflexivity|].
  destruct (pitchShifted (adoptVoice base (ctl w))).
  - repeat split; try reflexivity; intros E; discriminate E.
  - split; [|split; [|discriminate]].
    + apply numOr_nonzero, numOr_nonzero. intros E. discriminate E.
    + apply numOr_nonzero. intros E. discriminate E.
Qed.


Lemma speak_remote_start : forall text opts w,
  needsFallback (beforeHyphen (effectiveLang opts (ctl w))) (ctl w) = true ->
  encodable (sanitize text) = true ->
  exec (CallSpeak text opts) w
  = Some (withRemote ((nextCall w, remoteCallOf text opts w) :: remote w)
            (S (nextCall w))
            (withCtl (setGoogleSpeaking true) (worldOf (stopSpeaking w))),
          remoteStart text opts w).
Proof.
  intros text opts w Hnf Henc. cbn [exec]. unfold done.
  destruct (speak_spec text opts w) as [Ht Hw]. rewrite Ht, Hw, Hnf.
  clear Ht Hw.
  match goal with |- context [speakRemote ?t ?b ?r ?o ?x] =>
    pose proof (speakRemote_spec t b r o x) as H end.
  cbv zeta in H. rewrite Henc in H. destruct H as [Ht Hw].
  rewrite Ht, Hw. reflexivity.
Qed.

Ltac run_steps := repeat (progress (cbn; rewrite ?Nat.eqb_refl)).

(** X16: the course of a remote call that succeeds. [onStart] is called
    before the request is sent; when the audio arrives it is loaded and
    played with the remote flag true; when it ends the flag is false again,
    [onEnd] is called and nothing has been handed to the synthesiser. *)
Theorem remote_speech_signals_completion : forall text opts w position,
  needsFallback (beforeHyphen (effectiveLang opts (ctl w))) (ctl w) = true ->
  encodable (sanitize text) = true ->
  exists w1 w2,
    execAll [CallSpeak text opts; FetchArrived (nextCall w)] w
    = Some (w1, remoteStart text opts w
                ++ [AudioLoad (SrcBlob (nextCall w)); AudioPlay])
    /\ isGoogleSpeaking (ctl w1) = true
    /\ paused (audio w1) = false
    /\ synthQueue w1 = []
    /\ exec (AudioEnded position) w1 = Some (w2, invoked (o_onEnd opts) [])
    /\ isGoogleSpeaking (ctl w2) = false
    /\ paused (audio w2) = true
    /\ synthQueue w2 = [].
Proof.
  intros text opts w position Hnf Henc.
  cbn [execAll]. rewrite (speak_remote_start text opts w Hnf Henc).
  cbn [exec remote withRemote lookupCall]. rewrite Nat.eqb_refl.
  cbn [r_stage remoteCallOf]. unfold done.
  destruct (o_onEnd opts) as [f|] eqn:Eend.
  all: eexists; eexists.
  all: split; [cbn [execAll]; rewrite app_nil_r; reflexivity|].
  all: split; [reflexivity|]. 
  all: split; [reflexivity|].
  all: split; [reflexivity|].
  all: split; [run_steps; unfold resumeDone; cbn [r_opts]; rewrite Eend;
               reflexivity|].
  all: repeat split; reflexivity.
Qed.

(** X17: [stopSpeaking] does not withdraw a request that is on its way.
    When the audio arrives after the cancellation it is loaded and played
    all the same, with the remote flag false. *)
Theorem stopSpeaking_keeps_pending_request : forall text opts w,
  needsFallback (beforeHyphen (effectiveLang opts (ctl w))) (ctl w) = true ->
  encodable (sanitize text) = true ->
  exists w',
    execAll [CallSpeak text opts; CallStopSpeaking;
             FetchArrived (nextCall w)] w
    = Some (w', remoteStart text opts w
                ++ [SynthCancel; AudioPause; AudioSeek 0;
                    AudioLoad (SrcBlob (nextCall w)); AudioPlay])
    /\ src (audio w') = SrcBlob (nextCall w)
    /\ paused (audio w') = false
    /\ isGoogleSpeaking (ctl w') = false.
Proof.
  intros text opts w Hnf Henc.
  cbn [execAll]. rewrite (speak_remote_start text opts w Hnf Henc).
  cbn [exec]. unfold done at 1.
  cbn [exec remote withRemote lookupCall worldOf stopSpeaking].
  run_steps. eexists. split; [rewrite ?app_nil_r; reflexivity|].
  repeat split; reflexivity.
Qed.

Lemma adoptVoice_google : forall base c,
  isGoogleSpeaking (adoptVoice base c) = isGoogleSpeaking c.
Proof.
  intros base c. unfold adoptVoice.
  destruct (selectedVoice c); [reflexivity|].
  destruct (voices c); reflexivity.
Qed.

(** X18: when the request of the remote path fails, [speak] goes on with
    the native path, and [onStart], which was called before the request,
    is attached to the first utterance as well: it is called a second time
    when that utterance starts. *)
Theorem failed_remote_repeats_onStart : forall text opts w f,
  needsFallback (beforeHyphen (effectiveLang opts (ctl w))) (ctl w) = true ->
  encodable (sanitize text) = true ->
  sanitize text <> [] ->
  o_onStart opts = Some f ->
  exists w' us,
    execAll [CallSpeak text opts; FetchFailed (nextCall w);
             UtteranceStarted] w
    = Some (w', remoteStart text opts w
                ++ map SynthSpeak us ++ [Invoke f []])
    /\ In (Invoke f []) (remoteStart text opts w)
    /\ us <> []
    /\ isGoogleSpeaking (ctl w') = false.
Proof.
  intros text opts w f Hnf Henc Hne Hstart.
  cbn [execAll]. rewrite (speak_remote_start text opts w Hnf Henc).
  cbn [exec remote withRemote lookupCall]. rewrite Nat.eqb_refl.
  cbn [r_stage remoteCallOf]. unfold done at 1.
  rewrite !traceOf_bind, !worldOf_bind. unfold resumeFailed.
  cbn [r_lang r_base r_text r_opts].
  match goal with |- context [speakLocal ?t ?b ?r ?o ?x] =>
    destruct (speakLocal_spec t b r o x) as [Ht Hw];
    destruct (localUtterances_shape t b r o (ctl x) Hne
                (sanitize_lastSolid text))
      as (_ & (u & rest & Hus & Hon & _) & _)
  end.
  rewrite Ht, Hw, Hus. clear Ht Hw.
  cbn [update fst snd worldOf traceOf app synthQueue withSynth withCtl
       withRemote synthStarted stopSpeaking exec].
  change (synthQueue (worldOf (stopSpeaking w))) with (@nil Utterance).
  change (synthStarted (worldOf (stopSpeaking w))) with false.
  cbn [app]. unfold done.
  cbn [r_opts remoteCallOf] in Hon. rewrite Hstart in Hon.
  rewrite traceOf_bind, worldOf_bind. rewrite Hon.
  eexists. exists (u :: rest).
  split; [cbn; reflexivity|].
  split; [unfold remoteStart; rewrite Hstart; cbn; tauto|].
  split; [discriminate|].
  cbn [ctl withSynth withCtl withRemote]. rewrite adoptVoice_google.
  reflexivity.
Qed.
(** ** Listening *)

Lemma listeningSound_view : forall w w',
  listeningPart w' = listeningPart w -> listeningSound w -> listeningSound w'.
Proof.
  intros w w' E H. unfold listeningPart in E. injection E as E1 E2 E3 E4.
  unfold listeningSound in *. rewrite E1, E2, E3, E4. exact H.
Qed.

Lemma exec_listeningSound : forall op w w' tr,
  exec op w = Some (w', tr) -> listeningSound w -> listeningSound w'.
Proof.
  intros op w w' tr H Hs.
  destruct (isListeningOp op) eqn:Eop.
  2: { exact (listeningSound_view _ _
                (exec_keeps_listening op w w' tr Eop H) Hs). }
  destruct w as [c q st a h ra r u n].
  destruct c as [rec lis sv vs uq sf cl pg pl dp gs].
  unfold listeningSound in *. cbn in Hs.
  destruct op; try discriminate Eop; cbn in H.
  - destruct rec, lis, ra; cbn in H; injection H as <- <-; cbn;
      intuition congruence.
  - destruct rec, lis; cbn in H; injection H as <- <-; cbn;
      intuition congruence.
  - destruct ra; [|discriminate]. destruct h as [h|]; [|discriminate].
    injection H as <- <-.
    destruct (h_onResult h); cbn; intuition congruence.
  - destruct ra; [|discriminate]. destruct h as [h|]; [|discriminate].
    injection H as <- <-.
    destruct (h_onEnd h); cbn; intuition congruence.
  - destruct ra; [|discriminate]. destruct h as [h|]; [|discriminate].
    injection H as <- <-.
    destruct (h_onError h); cbn; intuition congruence.
Qed.

Lemma newController_listeningSound : forall hasRecognition vs w,
  newController hasRecognition vs = Some w -> listeningSound w.
Proof.
  intros hasRecognition vs w H. unfold newController in H.
  destruct hasRecognition.
  - destruct (loadVoices vs _) as [c|] eqn:E; [|discriminate].
    injection H as <-. apply loadVoices_frame in E. destruct E as [_ E].
    unfold listeningSound. cbn in *. rewrite E. split; discriminate.
  - injection H as <-. split; discriminate.
Qed.

Lemma reachable_listeningSound : forall w,
  reachable w -> listeningSound w.
Proof.
  induction 1 as [r vs w H | w op w' tr _ IH H].
  - exact (newController_listeningSound _ _ _ H).
  - exact (exec_listeningSound _ _ _ _ H IH).
Qed.

(** X19: in every reachable state the listening flag is true only while
    the recogniser is capturing, and the recogniser captures only with the
    handlers of [startListening] installed. A controller built without
    speech recognition never listens: [startListening] does nothing
    there. *)
Theorem listening_only_while_capturing : forall w,
  reachable w ->
  listeningSound w
  /\ (recognition (ctl w) = false ->
      isListening (ctl w) = false /\ recActive w = false
      /\ forall onResult onEnd onError,
           startListening onResult onEnd onError w = (tt, w, [])).
Proof.
  intros w Hw. pose proof (reachable_listeningSound w Hw) as Hs.
  split; [exact Hs|]. intros Hrec. destruct Hs as [H1 H2].
  assert (Hl : isListening (ctl w) = false).
  { destruct (isListening (ctl w)); [|reflexivity].
    destruct (H1 eq_refl) as [H _]. congruence. }
  assert (Ha : recActive w = false).
  { destruct (recActive w); [|reflexivity].
    destruct (H2 eq_refl) as [H _]. congruence. }
  repeat split; try assumption.
  intros onResult onEnd onError. unfold startListening, bind, get.
  cbn [fst snd]. rewrite Hrec. reflexivity.
Qed.

(** X20: [unlock] never writes to the controller. It replaces the source of
    the audio element by the silent clip and plays it; when that has
    played, a blob source is put back, and left paused, while an empty
    source stays replaced by the silent clip. *)
Theorem unlock_restores_a_blob_source : forall w,
  unlocks w = [] ->
  exists w1 w2,
    exec CallUnlock w = Some (w1, [AudioLoad SrcSilent; AudioPlay])
    /\ ctl w1 = ctl w
    /\ src (audio w1) = SrcSilent /\ paused (audio w1) = false
    /\ exec UnlockPlayed w1
       = Some (w2, match src (audio w) with
                   | SrcBlob i => [AudioLoad (SrcBlob i)]
                   | _ => []
                   end)
    /\ ctl w2 = ctl w
    /\ unlocks w2 = []
    /\ src (audio w2) = match src (audio w) with
                        | SrcBlob i => SrcBlob i
                        | _ => SrcSilent
                        end
    /\ paused (audio w2) = match src (audio w) with
                           | SrcBlob _ => true
                           | _ => false
                           end.
Proof.
  intros w Hu. destruct w as [c q st a h ra r u n]. cbn in Hu. subst u.
  destruct a as [sr pa ct li].
  destruct sr; (eexists; eexists; repeat split; reflexivity).
Qed.

(** ** The voice button of the page *)

Lemma sound_setInput : forall text p,
  pageSound p -> pageSound (fst (setInput text p)).
Proof. intros text p H. exact H. Qed.

Lemma sound_speechCall (op : Op) (a : Act unit) :
  isListeningOp op = false ->
  (forall w, exec op w = done a w) ->
  forall p, pageSound p -> pageSound (fst (callController a p)).
Proof.
  intros Hop Hexec p (Hr & Hl & Hh).
  assert (E : exec op (controller p)
              = Some (worldOf (a (controller p)), traceOf (a (controller p))))
    by (rewrite Hexec; reflexivity).
  pose proof (exec_keeps_listening _ _ _ _ Hop E) as Hv.
  unfold listeningPart in Hv. injection Hv as _ Hv2 Hv3 _.
  unfold pageSound. cbn [fst callController controller isRecording].
  rewrite Hv2, Hv3.
  split; [exact (reach_step _ _ _ _ Hr E)|]. split; assumption.
Qed.

Lemma sound_unlock : forall p,
  pageSound p -> pageSound (fst (callController unlock p)).
Proof.
  apply (sound_speechCall CallUnlock); [reflexivity | reflexivity].
Qed.

Lemma sound_stopListening : forall p,
  pageSound p ->
  pageSound (fst (callController stopListening p))
  /\ isListening (ctl (controller (fst (callController stopListening p))))
     = false
  /\ isRecording (fst (callController stopListening p)) = isRecording p.
Proof.
  intros p (Hr & Hl & Hh).
  pose proof (reachable_listeningSound _ Hr) as [Hs _].
  assert (E : exec CallStopListening (controller p)
              = Some (worldOf (stopListening (controller p)),
                      traceOf (stopListening (controller p))))
    by reflexivity.
  pose proof (reach_step _ _ _ _ Hr E) as Hr'.
  unfold pageSound. cbn [fst callController controller isRecording].
  destruct (controller p) as [c q st a h ra r u n] eqn:Ew.
  destruct c as [rec lis sv vs uq sf cl pg pl dp gs].
  cbn in Hl, Hh, Hs.
  destruct rec, lis; cbn in *;
    try (destruct (Hs eq_refl) as [Hx _]; discriminate Hx);
    repeat split; auto; discriminate.
Qed.

Lemma keepsPage_andThen : forall f g,
  keepsPage f -> keepsPage g -> keepsPage (andThen f g).
Proof.
  intros f g Hf Hg q Hq. unfold andThen. cbn [fst].
  destruct (Hf q Hq) as [H1 R1]. destruct (Hg _ H1) as [H2 R2].
  split; [exact H2 | rewrite R2; exact R1].
Qed.

Lemma keepsPage_skip : keepsPage (fun p => (p, [])).
Proof. intros q Hq. split; [exact Hq | reflexivity]. Qed.

Lemma keepsPage_setInput : forall text, keepsPage (setInput text).
Proof. intros text q Hq. split; [exact Hq | reflexivity]. Qed.

Lemma keepsPage_unlock : keepsPage (callController unlock).
Proof. intros q Hq. split; [exact (sound_unlock q Hq) | reflexivity]. Qed.

Lemma keepsPage_stopListening : keepsPage (callController stopListening).
Proof.
  intros q Hq. destruct (sound_stopListening q Hq) as (H & _ & R).
  split; assumption.
Qed.

Lemma keepsPage_sendMessage : keepsPage sendMessage.
Proof.
  intros q Hq. unfold sendMessage.
  remember (trim (userInput q)) as t eqn:Et. clear Et.
  destruct t as [|m0 ms]; [split; [exact Hq | reflexivity]|].
  apply keepsPage_andThen; [exact keepsPage_unlock | | exact Hq].
  apply keepsPage_andThen; [apply keepsPage_setInput|].
  intros q' Hq'. split; [exact Hq' | reflexivity].
Qed.

Lemma keepsPage_onResult : forall final interim,
  keepsPage (onResult final interim).
Proof.
  intros final interim. unfold onResult. apply keepsPage_andThen.
  - destruct interim; [apply keepsPage_skip | apply keepsPage_setInput].
  - destruct final; [apply keepsPage_skip|].
    apply keepsPage_andThen; [apply keepsPage_setInput|].
    apply keepsPage_andThen; [apply keepsPage_unlock|].
    apply keepsPage_andThen;
      [apply keepsPage_stopListening | apply keepsPage_sendMessage].
Qed.

Lemma startListening_hooks : forall onR onE onX w h,
  recHooks (worldOf (startListening onR onE onX w)) = Some h ->
  h = mkHooks onR onE onX \/ recHooks w = Some h.
Proof.
  intros onR onE onX w h.
  destruct w as [c q st a h0 ra r u n].
  destruct c as [rec lis sv vs uq sf cl pg pl dp gs].
  destruct rec, lis, ra; cbn; intros H; auto;
    injection H as <-; left; reflexivity.
Qed.

Lemma page_of_result : forall (x : Page * list PageEvent) p' out,
  Some x = Some (p', out) -> p' = fst x.
Proof. intros x p' out H. injection H as ->. reflexivity. Qed.

Lemma pageReachable_sound : forall p, pageReachable p -> pageSound p.
Proof.
  induction 1 as [r vs w H | p o p' out _ IH H].
  - split; [exact (reach_new _ _ _ H)|].
    pose proof (newController_listeningSound _ _ _ H) as [Hs Ha].
    unfold newController in H. cbn [controller isRecording].
    destruct r.
    + destruct (loadVoices vs _) as [c|] eqn:E; [|discriminate].
      injection H as <-. apply loadVoices_frame in E. destruct E as [_ E].
      cbn in *. rewrite E. split; discriminate.
    + injection H as <-. split; discriminate.
  - destruct o as [|text|op]; cbn [pageExec] in H.
    + apply page_of_result in H. subst p'. unfold toggleVoiceInput.
      destruct (isRecording p) eqn:Erec.
      * exact (proj1 (sound_stopListening p IH)).
      * unfold andThen. cbn [fst].
        destruct IH as (Hr & Hl & Hh).
        set (a := startListening (Some cbResult) (Some cbEnd) (Some cbError)).
        assert (E : exec (CallStartListening (Some cbResult) (Some cbEnd)
                            (Some cbError)) (controller p)
                    = Some (worldOf (a (controller p)),
                            traceOf (a (controller p)))) by reflexivity.
        split; [exact (reach_step _ _ _ _ Hr E)|].
        split; [intros _; reflexivity|].
        cbn [callController controller setRecording fst].
        intros h E'. apply startListening_hooks in E'.
        destruct E' as [-> | E']; [reflexivity | exact (Hh h E')].
    + apply page_of_result in H. subst p'. exact IH.
    + destruct (isListeningOp op) eqn:Eop.
      * destruct op; try discriminate Eop; try discriminate H.
        all: destruct (exec _ (controller p)) as [[w' tr]|] eqn:E;
          [|discriminate H].
        all: apply page_of_result in H; subst p'.
        all: destruct IH as (Hr & Hl & Hh).
        all: pose proof (reach_step _ _ _ _ Hr E) as Hr'.
        all: cbn [exec] in E.
        all: destruct (recActive (controller p)); [|discriminate E].
        all: destruct (recHooks (controller p)) as [h|] eqn:Ehooks;
          [|discriminate E].
        all: rewrite (Hh h eq_refl) in E.
        all: injection E as <- <-.
        all: unfold andThen; cbn [fst dispatchAll invoke pageHooks h_onResult
               h_onEnd h_onError traceOf emit snd dispatch].
        all: cbn [Nat.eqb cbResult cbEnd cbError].
        -- apply keepsPage_onResult. unfold pageSound.
           cbn [controller isRecording].
           split; [exact Hr'|]. split; [exact Hl|].
           intros h' E'. apply Hh.
           first [exact E' | rewrite <- Ehooks; exact E'].
        -- unfold pageSound. cbn.
           split; [exact Hr'|]. split; [discriminate|].
           intros h' E'. apply Hh.
           first [exact E' | rewrite <- Ehooks; exact E'].
        -- unfold pageSound. cbn.
           split; [exact Hr'|]. split; [discriminate|].
           intros h' E'. apply Hh.
           first [exact E' | rewrite <- Ehooks; exact E'].
      * assert (Hno : forall a b c, op <> CallStartListening a b c)
          by (intros a b c ->; discriminate Eop).
        assert (Hno' : op <> CallStopListening)
          by (intros ->; discriminate Eop).
        assert (H' : match exec op (controller p) with
                     | Some (w', tr) =>
                         Some (mkPage (isRecording p) (userInput p) w',
                               map OfController tr ++ [])
                     | None => None
                     end = Some (p', out)).
        { destruct op; try discriminate Eop; exact H. }
        destruct (exec op (controller p)) as [[w' tr]|] eqn:E;
          [|discriminate H'].
        apply page_of_result in H'. subst p'. cbn [fst].
        destruct IH as (Hr & Hl & Hh).
        pose proof (exec_keeps_listening _ _ _ _ Eop E) as Hv.
        unfold listeningPart in Hv. injection Hv as _ Hv2 Hv3 _.
        unfold pageSound. cbn [controller isRecording].
        rewrite Hv2, Hv3.
        split; [exact (reach_step _ _ _ _ Hr E)|]. split; assumption.
Qed.

(** X21: on the page, whenever the controller is listening the voice
    button shows recording, the controller is in a state its operations
    can reach, and the recogniser's handlers are the three closures of
    [toggleVoiceInput]. *)
Theorem recording_covers_listening : forall p,
  pageReachable p ->
  reachable (controller p)
  /\ (isListening (ctl (controller p)) = true -> isRecording p = true)
  /\ (forall h, recHooks (controller p) = Some h ->
        h = mkHooks (Some cbResult) (Some cbEnd) (Some cbError)).
Proof. intros p H. exact (pageReachable_sound p H). Qed.

Lemma stopListening_without_recognition : forall w,
  recognition (ctl w) = false -> stopListening w = (tt, w, []).
Proof.
  intros w H. unfold stopListening, bind, get. cbn [fst snd]. rewrite H.
  reflexivity.
Qed.

(** X22: on a platform without speech recognition one click on the voice
    button sets [isRecording] and nothing else: the controller starts
    nothing, so no handler will ever clear the flag. Once set it stays set
    whatever happens next, and every further click only calls
    [stopListening], which does nothing. *)
Theorem voice_button_sticks_without_recognition : forall p,
  pageReachable p ->
  recognition (ctl (controller p)) = false ->
  toggleVoiceInput p = (mkPage true (userInput p) (controller p), [])
  /\ (isRecording p = true ->
      forall o p' out,
        pageExec o p = Some (p', out) ->
        isRecording p' = true
        /\ recognition (ctl (controller p')) = false).
Proof.
  intros p Hp Hrec.
  destruct (pageReachable_sound p Hp) as (Hr & _ & _).
  destruct (reachable_listeningSound _ Hr) as [_ Hact].
  assert (Ha : recActive (controller p) = false).
  { destruct (recActive (controller p)); [|reflexivity].
    destruct (Hact eq_refl) as [H _]. congruence. }
  assert (Htoggle : toggleVoiceInput p
                    = (mkPage true (userInput p) (controller p), [])).
  { unfold toggleVoiceInput, andThen, callController, setRecording.
    destruct (isRecording p) eqn:E.
    - rewrite (stopListening_without_recognition _ Hrec). reflexivity.
    - cbn [fst snd controller userInput isRecording].
      unfold startListening, bind, get. cbn [fst snd]. rewrite Hrec.
      reflexivity. }
  split; [exact Htoggle|].
  intros Hon o p' out H. destruct o as [|text|op]; cbn [pageExec] in H.
  - rewrite Htoggle in H. injection H as <- _. split; [reflexivity|exact Hrec].
  - apply page_of_result in H. subst p'. split; assumption.
  - destruct (isListeningOp op) eqn:Eop.
    + destruct op; try discriminate Eop; try discriminate H.
      all: cbn [exec] in H; rewrite Ha in H; discriminate H.
    + assert (H' : match exec op (controller p) with
                   | Some (w', tr) =>
                       Some (mkPage (isRecording p) (userInput p) w',
                             map OfController tr ++ [])
                   | None => None
                   end = Some (p', out)).
      { destruct op; try discriminate Eop; exact H. }
      destruct (exec op (controller p)) as [[w' tr]|] eqn:E;
        [|discriminate H'].
      apply page_of_result in H'. subst p'. cbn [fst isRecording controller].
      pose proof (exec_keeps_listening _ _ _ _ Eop E) as Hv.
      unfold listeningPart in Hv. injection Hv as Hv1 _ _ _.
      split; [exact Hon | rewrite Hv1; exact Hrec].
Qed.

Lemma andThen_fst : forall f g p,
  fst (andThen f g p) = fst (g (fst (f p))).
Proof. reflexivity. Qed.

Lemma andThen_snd : forall f g p,
  snd (andThen f g p) = snd (f p) ++ snd (g (fst (f p))).
Proof. reflexivity. Qed.

Lemma not_chat_of_controller : forall m tr,
  ~ In (ChatSent m) (map OfController tr).
Proof.
  intros m tr H. apply in_map_iff in H. destruct H as (e & He & _).
  discriminate He.
Qed.

(** X23: what the page does with a result of the recogniser. An interim
    transcript only fills the input field. A final transcript fills the
    input field, has the controller stop listening at once, and is sent as
    a chat message, trimmed, with the input field cleared, unless it is
    blank. The recording flag is left as it is: the end notification clears
    it. *)
Theorem final_transcript_is_sent : forall p results p' out,
  pageReachable p ->
  pageExec (Step (RecResult results)) p = Some (p', out) ->
  isRecording p' = isRecording p
  /\ (fst (transcripts results) = [] ->
      controller p' = controller p
      /\ userInput p' = match snd (transcripts results) with
                        | [] => userInput p
                        | interim => interim
                        end
      /\ forall m, ~ In (ChatSent m) out)
  /\ (fst (transcripts results) <> [] ->
      isListening (ctl (controller p')) = false
      /\ match trim (fst (transcripts results)) with
         | [] => userInput p' = fst (transcripts results)
                 /\ forall m, ~ In (ChatSent m) out
         | message => userInput p' = [] /\ In (ChatSent message) out
         end).
Proof.
  intros p results p' out Hp H.
  destruct (pageReachable_sound p Hp) as (Hr & Hl & Hh).
  cbn [pageExec exec isListeningOp] in H.
  destruct (recActive (controller p)) eqn:Ea; [|discriminate H].
  destruct (recHooks (controller p)) as [h|] eqn:Eh; [|discriminate H].
  rewrite (Hh h eq_refl) in H. unfold done in H.
  set (final := fst (transcripts results)) in *.
  set (interim := snd (transcripts results)) in *.
  clearbody final interim.
  set (p0 := mkPage (isRecording p) (userInput p) (controller p)).
  assert (Hres : p' = fst (onResult final interim p0)
                 /\ out = OfController (Invoke cbResult [final; interim])
                          :: snd (onResult final interim p0) ++ []).
  { injection H as <- <-. split; reflexivity. }
  clear H. destruct Hres as [-> ->].
  assert (Hsound0 : pageSound p0).
  { unfold pageSound, p0. cbn. repeat split; auto.
    intros h' E'. apply Hh. rewrite <- Eh. exact E'. }
  assert (R0 : isRecording p0 = isRecording p) by reflexivity.
  assert (U0 : userInput p0 = userInput p) by reflexivity.
  assert (C0 : controller p0 = controller p) by reflexivity.
  clearbody p0.
  split.
  { destruct (keepsPage_onResult final interim p0 Hsound0) as [_ R].
    rewrite R. exact R0. }
  split.
  - intros ->. unfold onResult. rewrite andThen_fst, andThen_snd.
    destruct interim; cbn; (split; [assumption|]);
      (split; [assumption || reflexivity|]);
      intros m [Hm|[]]; discriminate Hm.
  - intros Hne. destruct final as [|f0 final]; [congruence|].
    unfold onResult. rewrite !andThen_fst, !andThen_snd.
    match goal with
    | |- context [setInput (f0 :: final) (fst ?x)] => set (p1 := fst x)
    end.
    assert (H1 : pageSound p1).
    { unfold p1. destruct interim; exact Hsound0. }
    match goal with
    | |- context [snd (?f p0)] =>
        replace (snd (f p0)) with (@nil PageEvent)
          by (destruct interim; reflexivity)
    end.
    clearbody p1.
    set (p2 := fst (setInput (f0 :: final) p1)).
    assert (H2 : pageSound p2) by exact H1.
    assert (U2 : userInput p2 = f0 :: final) by reflexivity.
    change (snd (setInput (f0 :: final) p1)) with (@nil PageEvent).
    clearbody p2.
    pose proof (sound_unlock p2 H2) as H3.
    assert (U3 : userInput (fst (callController unlock p2)) = f0 :: final)
      by exact U2.
    set (p3 := fst (callController unlock p2)) in *.
    set (t3 := snd (callController unlock p2)).
    assert (T3 : forall m, ~ In (ChatSent m) t3)
      by (intros m; apply not_chat_of_controller).
    clearbody p3 t3.
    destruct (sound_stopListening p3 H3) as (H4 & L4 & _).
    assert (U4 : userInput (fst (callController stopListening p3))
                 = f0 :: final) by exact U3.
    set (p4 := fst (callController stopListening p3)) in *.
    set (t4 := snd (callController stopListening p3)).
    assert (T4 : forall m, ~ In (ChatSent m) t4)
      by (intros m; apply not_chat_of_controller).
    clearbody p4 t4.
    unfold sendMessage. rewrite U4.
    remember (trim (f0 :: final)) as t eqn:Et. clear Et.
    destruct t as [|m0 ms].
    + cbn [fst snd app]. split; [exact L4|]. split; [exact U4|].
      intros m Hm. rewrite !app_nil_r in Hm.
      destruct Hm as [Hm|Hm]; [discriminate Hm|].
      apply in_app_or in Hm. destruct Hm as [Hm|Hm];
        [exact (T3 m Hm) | exact (T4 m Hm)].
    + rewrite !andThen_fst, !andThen_snd.
      cbn [fst snd setInput callController controller userInput].
      split; [exact L4|]. split; [reflexivity|].
      right. cbn [app]. apply in_or_app. left.
      do 3 (apply in_or_app; right). left. reflexivity.
Qed.

End Platform.

(** ** Runs of the model *)

(** The sanitiser on the sample texts of the specification. *)
Example sanitize_inline_code :
  sanitize (js "Use `foo()` to run.") = js "Use code foo() to run.".
Proof. vm_compute. reflexivity. Qed.

Example sanitize_fenced_code :
  sanitize (fence ++ js "python" ++ [10] ++ js "print(1)" ++ [10] ++ fence)
  = js "Here is the python code. End of code.".
Proof. vm_compute. reflexivity. Qed.

Example sentences_keep_terminators :
  sentencesOf (js "Hi there. How are you?? fine")
  = [js "Hi there."; js " How are you??"; js " fine"].
Proof. vm_compute. reflexivity. Qed.

(** A remote call that runs to its end: [onStart] before the request,
    [onEnd] when the audio has ended, the flag true in between. *)
Example remote_speech_completes :
  let opts := mkOptions (Some (js "ta")) None None (Some 1%nat) (Some 2%nat) in
  option_map (fun r => isGoogleSpeaking (ctl (fst r)))
    (execAll enUS asciiLower
       [CallSpeak (js "Hello") opts; FetchArrived 0%nat] startWorld)
  = Some true
  /\ option_map (fun r => (isGoogleSpeaking (ctl (fst r)), snd r))
       (execAll enUS asciiLower
          [CallSpeak (js "Hello") opts; FetchArrived 0%nat;
           PlayStarted 0%nat; AudioEnded 5] startWorld)
     = Some (false,
             [SynthCancel; AudioPause; AudioSeek 0; Invoke 1%nat [];
              EnterPlayGoogleTTS (js "Hello") (js "ta");
              Fetch (js "Hello") (js "ta");
              AudioLoad (SrcBlob 0); AudioPlay; Invoke 2%nat []]).
Proof. split; vm_compute; reflexivity. Qed.

(** A remote call whose request fails falls through to the native path. *)
Example remote_failure_falls_through :
  let opts := mkOptions (Some (js "ta")) None None (Some 1%nat) (Some 2%nat) in
  option_map (fun r => spoken (snd r))
    (execAll enUS asciiLower
       [CallSpeak (js "Hello") opts; FetchFailed 0%nat] startWorld)
  = Some [mkUtterance (js "Hello") (js "ta") (Some usEnglish) 1.15%Q 0.9%Q
            (Some 1%nat) (Some 2%nat)].
Proof. vm_compute. reflexivity. Qed.

(** A text that [encodeURIComponent] rejects: [speak] is suspended all the
    same, and the native path runs when it is resumed, with what the
    caller has set in between: here the male voice settings. *)
Example thrown_call_resumes_later :
  let opts := mkOptions (Some (js "ta")) None None None None in
  let text := 55357 :: js "Hi." in
  option_map (fun r => spoken (snd r))
    (execAll enUS asciiLower [CallSpeak text opts] startWorld)
  = Some []
  /\ option_map (fun r => spoken (snd r))
       (execAll enUS asciiLower
          [CallSpeak text opts; CallSetVoice (js "male") (js "en");
           Resumed 0%nat] startWorld)
     = Some [mkUtterance text (js "ta") (Some usEnglish) 0.7%Q 0.95%Q
               None None].
Proof. split; vm_compute; reflexivity. Qed.

Lemma startWorld_reachable : reachable enUS asciiLower startWorld.
Proof. apply (reach_new enUS asciiLower true [usEnglish]). reflexivity. Defined.

(** [speak("Hello", {lang: 'ta'})] on a catalogue with an English voice. *)
Lemma speak_remote_iff_witness :
  remoteAttempted
    (traceOf (speak asciiLower (js "Hello")
                (mkOptions (Some (js "ta")) None None None None) startWorld))
  = true
  /\ effectiveLang (mkOptions (Some (js "ta")) None None None None)
       (ctl startWorld) = js "ta"
  /\ effectiveLang noOptions (ctl startWorld) = js "en-US".
Proof.
  pose proof (speak_remote_iff asciiLower (js "Hello")
                (mkOptions (Some (js "ta")) None None None None) startWorld)
    as (_ & Hsome & _ & Hta).
  pose proof (speak_remote_iff asciiLower (js "Hello") noOptions startWorld)
    as (_ & _ & Hnone & _).
  split; [apply Hta; reflexivity|].
  split; [apply Hsome; [reflexivity | discriminate] | apply Hnone; reflexivity].
Defined.



(** C3, counterexample: with an English voice only, [setVoice('female',
    'fr')] finds no French voice and leaves the selected voice absent
    instead of taking the first voice of the catalogue. *)
Lemma setVoice_no_match_not_first :
  voices startController = [usEnglish]
  /\ normalizeLang enUS (js "fr") = Some (js "fr-FR")
  /\ startsWith (lang usEnglish) (beforeHyphen (js "fr-FR")) = false
  /\ exists c',
       setVoice enUS (js "female") (js "fr") startController = Some c'
       /\ selectedVoice c' = None
       /\ selectedVoice c' <> hd_error (voices c').
Proof.
  repeat (split; [reflexivity|]).
  eexists. split; [reflexivity|]. split; [reflexivity|].
  cbn. discriminate.
Qed.

Lemma setVoice_absent_iff_no_match_witness :
  exists c',
    setVoice enUS (js "female") (js "fr") startController = Some c'
    /\ voices c' = voices startController
    /\ (selectedVoice c' = None <->
        forall v, In v (voices startController) ->
          startsWith (lang v) (beforeHyphen (js "fr-FR")) = false).
Proof.
  apply (setVoice_absent_iff_no_match enUS (js "female") (js "fr")
           (js "fr-FR") startController).
  reflexivity.
Defined.

Lemma setVoice_selects_matching_language_witness :
  exists c' best,
    setVoice enUS (js "male") (js "en") startController = Some c'
    /\ selectedVoice c' = Some best
    /\ In best (voices startController)
    /\ startsWith (lang best) (beforeHyphen (js "en-US")) = true.
Proof.
  apply (setVoice_selects_matching_language enUS (js "male") (js "en")
           (js "en-US") startController).
  - reflexivity.
  - exists usEnglish. split; [left; reflexivity | reflexivity].
Defined.

(** C5, counterexample: a listening controller is no longer listening when
    [stopListening] returns. *)
Lemma stopListening_returns_idle :
  exec enUS asciiLower (CallStartListening None (Some 7%nat) None) startWorld
  = Some (listeningWorld, [RecStart])
  /\ recognition (ctl listeningWorld) = true
  /\ isListening (ctl listeningWorld) = true
  /\ isListening (ctl (worldOf (stopListening listeningWorld))) = false.
Proof. repeat split; reflexivity. Qed.

Lemma stopListening_clears_flag_at_once_witness :
  traceOf (stopListening listeningWorld) = [RecStop]
  /\ isListening (ctl (worldOf (stopListening listeningWorld))) = false.
Proof.
  pose proof (stopListening_clears_flag_at_once enUS asciiLower listeningWorld
                eq_refl eq_refl) as (Ht & Hl & _).
  split; assumption.
Defined.

Lemma setVoice_male_fr_google_francais_witness :
  exists c',
    setVoice enUS (js "male") (js "fr")
      (mkController true false None [googleFrancais] [] false (js "en-US")
         (js "female") (js "en-US") None false) = Some c'
    /\ selectedVoice c' = Some googleFrancais
    /\ defaultPitch c' = Some 0.85%Q.
Proof.
  destruct (setVoice_male_fr_google_francais enUS
              (mkController true false None [googleFrancais] [] false
                 (js "en-US") (js "female") (js "en-US") None false)
              eq_refl) as (c' & H1 & H2 & H3 & _).
  exists c'. repeat split; assumption.
Defined.

(** C7, counterexample: a link whose parts are separated by an emphasis
    marker is only completed by the first pass, and resolved by the
    second. *)
Lemma sanitize_twice_differs :
  sanitize (js "[a]*(b)") = js "[a](b)"
  /\ sanitize (sanitize (js "[a]*(b)")) = js "a"
  /\ sanitize (sanitize (js "[a]*(b)")) <> sanitize (js "[a]*(b)").
Proof.
  split; [vm_compute; reflexivity|].
  split; [vm_compute; reflexivity|].
  vm_compute. discriminate.
Qed.

Lemma sanitize_idempotent_on_plain_output_witness :
  sanitize (sanitize (js "Use `foo()` to run."))
  = sanitize (js "Use `foo()` to run.").
Proof.
  apply (sanitize_idempotent_on_plain_output (js "Use `foo()` to run.")).
  vm_compute. repeat constructor; discriminate.
Defined.

Lemma stopSpeaking_halts_both_witness :
  isSpeakingFlag (ctl (worldOf (stopSpeaking startWorld))) = false
  /\ worldOf (stopSpeaking startWorld) = startWorld.
Proof.
  pose proof (stopSpeaking_halts_both enUS asciiLower startWorld)
    as (_ & _ & _ & _ & _ & _ & _ & Hflag & _ & Hsame).
  split.
  - apply Hflag. exact startWorld_reachable.
  - apply Hsame; [repeat split; reflexivity | reflexivity].
Defined.

Lemma isSpeakingFlag_never_assigned_witness :
  isSpeakingFlag (ctl startWorld) = false.
Proof.
  pose proof (isSpeakingFlag_never_assigned enUS asciiLower)
    as (_ & _ & Hreach & _).
  apply Hreach. exact startWorld_reachable.
Defined.

(** [speak("**")]: the text is markup only. *)
Lemma speak_blank_text_is_silent_witness :
  traceOf (speak asciiLower (js "**") noOptions startWorld)
  = [SynthCancel; AudioPause; AudioSeek 0]
  /\ synthQueue (worldOf (speak asciiLower (js "**") noOptions startWorld))
     = [].
Proof.
  pose proof (speak_blank_text_is_silent asciiLower (js "**") noOptions
                startWorld) as H.
  destruct H as (_ & Ht & Hq & _).
  - vm_compute. constructor.
  - reflexivity.
  - split; assumption.
Defined.

(** ** Instances of the further properties *)

(** A text with markers and runs of white space. *)
Lemma sanitize_output_clean_witness :
  sanitize (js " a  *b* ") = js "a b" /\ isSpace 97 = false.
Proof.
  split; [vm_compute; reflexivity|].
  apply (proj1 (proj2 (proj2 (sanitize_output_clean (js " a  *b* "))))
           97 (js " b")).
  vm_compute. reflexivity.
Defined.

Lemma sanitize_keeps_words_witness :
  filter solid (sanitize (js "a  *b* ")) = filter solid (js "a  *b* ").
Proof.
  apply (sanitize_keeps_words (js "a  *b* ")).
  unfold plain. vm_compute js.
  repeat (constructor; [repeat split; discriminate|]). constructor.
Defined.

(** A Python block between two words. *)
Lemma sanitize_fence_is_notice_witness :
  sanitize (js "See " ++ fence ++ (js "py" ++ [10] ++ js "x=1") ++ fence
            ++ js " ok")
  = sanitize (js "See " ++ codeNotice (js "py" ++ [10] ++ js "x=1")
              ++ js " ok").
Proof.
  apply (sanitize_fence_is_notice (js "See ") (js "py" ++ [10] ++ js "x=1")
           (js " ok"));
    unfold noBacktick; vm_compute js; cbn [app];
    repeat (constructor; [reflexivity|]); constructor.
Defined.

Lemma sentences_cover_text_witness :
  concat (sentencesOf (js "Hi. Yo")) = js "Hi. Yo".
Proof.
  apply (proj2 (sentences_cover_text (js "Hi. Yo"))).
  intros c rest H. vm_compute in H. injection H as <- _. reflexivity.
Defined.

Lemma sentences_keep_their_terminators_witness :
  terminated (js "A.").
Proof.
  apply (proj2 (sentences_keep_their_terminators (js "A. B! C"))
           [] (js "A.") (js " B!") [js " C"]).
  vm_compute. reflexivity.
Defined.

(** Two sentences on the native path. *)
Lemma speak_native_one_utterance_per_sentence_witness :
  map u_text
    (spoken (traceOf (speak asciiLower (js "Hi. Yo") noOptions startWorld)))
  = map trim (sentencesOf (sanitize (js "Hi. Yo"))).
Proof.
  apply (speak_native_one_utterance_per_sentence asciiLower (js "Hi. Yo")
           noOptions startWorld).
  - vm_compute. reflexivity.
  - vm_compute. discriminate.
Defined.

Lemma normalizeLang_keeps_primary_subtag_witness :
  beforeHyphen (js "fr-FR") = beforeHyphen (js "fr").
Proof.
  apply (normalizeLang_keeps_primary_subtag enUS (js "fr") (js "fr-FR")).
  - vm_compute. reflexivity.
  - vm_compute. reflexivity.
Defined.

(** A male English request, then a female French one. *)
Lemma setVoice_last_call_wins_witness :
  match setVoice enUS (js "male") (js "en") startController with
  | Some c1 =>
      setVoice enUS (js "female") (js "fr") c1
      = setVoice enUS (js "female") (js "fr") startController
      /\ setVoice enUS (js "male") (js "en") c1 = Some c1
  | None => False
  end.
Proof.
  destruct (setVoice enUS (js "male") (js "en") startController) as [c1|]
    eqn:E.
  - exact (setVoice_last_call_wins enUS (js "male") (js "en") (js "female")
             (js "fr") startController c1 E).
  - vm_compute in E. discriminate E.
Defined.

Lemma loadVoices_reselects_witness :
  match loadVoices enUS [googleFrancais; usEnglish] startController with
  | Some c' =>
      voices c' = [googleFrancais; usEnglish]
      /\ preferredGender c' = js "female"
  | None => False
  end.
Proof.
  destruct (loadVoices enUS [googleFrancais; usEnglish] startController)
    as [c'|] eqn:E.
  - destruct (loadVoices_reselects enUS [googleFrancais; usEnglish]
                startController c' E) as (Hv & Hg & _).
    split; [exact Hv | exact Hg].
  - vm_compute in E. discriminate E.
Defined.

(** A catalogue with two male English voices, the second of Microsoft. *)
Lemma setVoice_prefers_gender_then_quality_witness :
  let c := mkController true false None
             [mkVoice (js "Daniel") (js "en-GB");
              mkVoice (js "Microsoft David") (js "en-US")]
             [] false (js "en-US") (js "female") (js "en-US") None false in
  match setVoice enUS (js "male") (js "en") c with
  | Some c' =>
      exists best,
        selectedVoice c' = Some best
        /\ hasKeyword (genderKeywords (js "male")) best = true
        /\ hasKeyword priorityKeywords best = true
  | None => False
  end.
Proof.
  intro c.
  destruct (setVoice enUS (js "male") (js "en") c) as [c'|] eqn:E.
  - destruct (setVoice_prefers_gender_then_quality enUS (js "male") (js "en")
                (js "en-US") c c') as (best & Hs & Hg & Hq).
    + vm_compute. reflexivity.
    + exact E.
    + exists (mkVoice (js "Daniel") (js "en-GB")).
      split; [left; reflexivity|]. split; vm_compute; reflexivity.
    + exists best. split; [exact Hs|]. split; [exact Hg|].
      apply Hq. exists (mkVoice (js "Microsoft David") (js "en-US")).
      split; [right; left; reflexivity|].
      repeat split; vm_compute; reflexivity.
  - vm_compute in E. discriminate E.
Defined.

(** A male French request on a catalogue whose French voice has no male
    keyword in its name. *)
Lemma setVoice_without_gender_keyword_witness :
  let c := mkController true false None [usEnglish; googleFrancais]
             [] false (js "en-US") (js "female") (js "en-US") None false in
  match setVoice enUS (js "male") (js "fr") c with
  | Some c' =>
      exists best, selectedVoice c' = Some best
                   /\ hasKeyword femaleKeywords best = false
  | None => False
  end.
Proof.
  intro c.
  destruct (setVoice enUS (js "male") (js "fr") c) as [c'|] eqn:E.
  - destruct (setVoice_without_gender_keyword enUS (js "male") (js "fr")
                (js "fr-FR") c c') as (_ & H).
    + vm_compute. reflexivity.
    + exact E.
    + intros v [<-|[<-|[]]] Hl; vm_compute in Hl |- *;
        first [discriminate Hl | reflexivity].
    + apply H; [vm_compute; reflexivity|].
      exists googleFrancais. split; [right; left; reflexivity|].
      split; vm_compute; reflexivity.
  - vm_compute in E. discriminate E.
Defined.

(** [speak] while listening leaves the listening side as it is. *)
Lemma speaking_and_listening_are_independent_witness :
  match exec enUS asciiLower (CallSpeak (js "Hi.") noOptions) listeningWorld
  with
  | Some (w', _) => listeningPart w' = listeningPart listeningWorld
  | None => False
  end.
Proof.
  destruct (exec enUS asciiLower (CallSpeak (js "Hi.") noOptions)
              listeningWorld) as [[w' tr]|] eqn:E.
  - exact (speaking_and_listening_are_independent enUS asciiLower
             (CallSpeak (js "Hi.") noOptions) listeningWorld w' tr E).
  - vm_compute in E. discriminate E.
Defined.

(** A platform without recognition, a voice selection and a cancellation. *)
Lemma without_recognition_speech_is_remote_witness :
  match execAll enUS asciiLower
          [CallSetVoice (js "male") (js "en"); CallStopSpeaking]
          (freshWorld freshController) with
  | Some (w', _) =>
      recognition (ctl w') = false
      /\ voices (ctl w') = []
      /\ remoteAttempted (traceOf (speak asciiLower (js "Hi.") noOptions w'))
         = true
  | None => False
  end.
Proof.
  destruct (execAll enUS asciiLower
              [CallSetVoice (js "male") (js "en"); CallStopSpeaking]
              (freshWorld freshController)) as [[w' tr]|] eqn:E.
  - destruct (without_recognition_speech_is_remote enUS asciiLower
                [usEnglish] (freshWorld freshController)
                [CallSetVoice (js "male") (js "en"); CallStopSpeaking]
                w' tr) as (Hr & Hv & Hs).
    + reflexivity.
    + reflexivity.
    + exact E.
    + split; [exact Hr|]. split; [exact Hv|]. apply Hs.
  - vm_compute in E. discriminate E.
Defined.

Lemma native_utterances_are_uniform_witness :
  u_lang hiUtterance = js "en-US"
  /\ u_voice hiUtterance = Some usEnglish
  /\ ~ (u_pitch hiUtterance == 0)%Q.
Proof.
  destruct (native_utterances_are_uniform asciiLower (js "en-US") (js "en")
              (js "Hi.") noOptions startWorld hiUtterance)
    as (Hl & Hv & Hp & _).
  - vm_compute. left. reflexivity.
  - split; [exact Hl|]. split; [exact Hv | exact Hp].
Defined.


(** A Tamil call with both callbacks. *)
Lemma remote_speech_signals_completion_witness :
  let opts := mkOptions (Some (js "ta")) None None (Some 1%nat) (Some 2%nat) in
  exists w1 w2,
    execAll enUS asciiLower
      [CallSpeak (js "Hello") opts; FetchArrived (nextCall startWorld)]
      startWorld
    = Some (w1, remoteStart (js "Hello") opts startWorld
                ++ [AudioLoad (SrcBlob (nextCall startWorld)); AudioPlay])
    /\ isGoogleSpeaking (ctl w1) = true
    /\ exec enUS asciiLower (AudioEnded 5) w1
       = Some (w2, invoked (o_onEnd opts) [])
    /\ isGoogleSpeaking (ctl w2) = false.
Proof.
  intro opts.
  destruct (remote_speech_signals_completion enUS asciiLower (js "Hello")
              opts startWorld 5)
    as (w1 & w2 & H1 & H2 & _ & _ & H3 & H4 & _).
  - vm_compute. reflexivity.
  - vm_compute. reflexivity.
  - exists w1, w2. split; [exact H1|]. split; [exact H2|].
    split; [exact H3 | exact H4].
Defined.

Lemma stopSpeaking_keeps_pending_request_witness :
  let opts := mkOptions (Some (js "ta")) None None None None in
  exists w',
    execAll enUS asciiLower
      [CallSpeak (js "Hello") opts; CallStopSpeaking;
       FetchArrived (nextCall startWorld)] startWorld
    = Some (w', remoteStart (js "Hello") opts startWorld
                ++ [SynthCancel; AudioPause; AudioSeek 0;
                    AudioLoad (SrcBlob (nextCall startWorld)); AudioPlay])
    /\ paused (audio w') = false
    /\ isGoogleSpeaking (ctl w') = false.
Proof.
  intro opts.
  destruct (stopSpeaking_keeps_pending_request enUS asciiLower (js "Hello")
              opts startWorld) as (w' & H1 & _ & H2 & H3).
  - vm_compute. reflexivity.
  - vm_compute. reflexivity.
  - exists w'. split; [exact H1|]. split; [exact H2 | exact H3].
Defined.

Lemma failed_remote_repeats_onStart_witness :
  let opts := mkOptions (Some (js "ta")) None None (Some 1%nat) None in
  exists w' us,
    execAll enUS asciiLower
      [CallSpeak (js "Hello") opts; FetchFailed (nextCall startWorld);
       UtteranceStarted] startWorld
    = Some (w', remoteStart (js "Hello") opts startWorld
                ++ map SynthSpeak us ++ [Invoke 1%nat []])
    /\ In (Invoke 1%nat []) (remoteStart (js "Hello") opts startWorld).
Proof.
  intro opts.
  destruct (failed_remote_repeats_onStart enUS asciiLower (js "Hello")
              opts startWorld 1%nat) as (w' & us & H1 & H2 & _).
  - vm_compute. reflexivity.
  - vm_compute. reflexivity.
  - vm_compute. discriminate.
  - reflexivity.
  - exists w', us. split; [exact H1 | exact H2].
Defined.

Lemma listening_only_while_capturing_witness : listeningSound startWorld.
Proof.
  apply (listening_only_while_capturing enUS asciiLower startWorld).
  apply (reach_new enUS asciiLower true [usEnglish]). reflexivity.
Defined.

Lemma unlock_restores_a_blob_source_witness :
  exists w1 w2,
    exec enUS asciiLower CallUnlock startWorld
    = Some (w1, [AudioLoad SrcSilent; AudioPlay])
    /\ exec enUS asciiLower UnlockPlayed w1 = Some (w2, [])
    /\ src (audio w2) = SrcSilent.
Proof.
  destruct (unlock_restores_a_blob_source enUS asciiLower startWorld)
    as (w1 & w2 & H1 & _ & _ & _ & H2 & _ & _ & H3 & _).
  - reflexivity.
  - exists w1, w2. split; [exact H1|]. split; [exact H2 | exact H3].
Defined.

(** The page after one click on the voice button. *)
Lemma recording_covers_listening_witness :
  isRecording (fst (toggleVoiceInput (mkPage false [] startWorld))) = true.
Proof.
  apply (recording_covers_listening enUS asciiLower
           (fst (toggleVoiceInput (mkPage false [] startWorld)))).
  - apply (page_step enUS asciiLower (mkPage false [] startWorld) ClickVoice
             _ (snd (toggleVoiceInput (mkPage false [] startWorld)))).
    + apply (page_new enUS asciiLower true [usEnglish]). reflexivity.
    + reflexivity.
  - vm_compute. reflexivity.
Defined.

Lemma voice_button_sticks_without_recognition_witness :
  toggleVoiceInput (mkPage false [] (freshWorld freshController))
  = (mkPage true [] (freshWorld freshController), []).
Proof.
  apply (voice_button_sticks_without_recognition enUS asciiLower
           (mkPage false [] (freshWorld freshController))).
  - apply (page_new enUS asciiLower false []). reflexivity.
  - reflexivity.
Defined.

(** A final transcript with blanks around it, while the page records. *)
Lemma final_transcript_is_sent_witness :
  match pageExec enUS asciiLower (Step (RecResult [(true, js " hi ")]))
          (fst (toggleVoiceInput (mkPage false [] startWorld))) with
  | Some (p', out) =>
      isListening (ctl (controller p')) = false
      /\ userInput p' = []
      /\ In (ChatSent (js "hi")) out
  | None => False
  end.
Proof.
  destruct (pageExec enUS asciiLower (Step (RecResult [(true, js " hi ")]))
              (fst (toggleVoiceInput (mkPage false [] startWorld))))
    as [[p' out]|] eqn:E.
  - destruct (final_transcript_is_sent enUS asciiLower
                (fst (toggleVoiceInput (mkPage false [] startWorld)))
                [(true, js " hi ")] p' out) as (_ & _ & H).
    + apply (page_step enUS asciiLower (mkPage false [] startWorld)
               ClickVoice _
               (snd (toggleVoiceInput (mkPage false [] startWorld)))).
      * apply (page_new enUS asciiLower true [usEnglish]). reflexivity.
      * reflexivity.
    + exact E.
    + destruct H as (Hl & Ht); [vm_compute; discriminate|].
      split; [exact Hl|]. exact Ht.
  - vm_compute in E. discriminate E.
Defined.
